(** * Dashboard data shaping of ai-factory-backend, embedded in Rocq

    The development follows [dashboard/src/lib/supabaseData.ts] (the
    statistics, the score trend and the record mapper) and the test-history
    page that filters, sorts and summarises the fetched test records.

    - JavaScript Numbers are IEEE 754 binary64 values: they are the values
      of the Standard Library's executable specification of binary floating
      point ([SpecFloat]) at precision 53 and maximal exponent 1024, and
      [+], [*], [/] and the comparisons are its operations.
    - [toFixed(1)], [Number(string)] and [Math.round] are written out from
      the ECMAScript specification, on strings.
    - A fetched timestamp is given by the time value (milliseconds since
      the epoch) that [new Date(...)] holds for it; the local time zone of
      the runtime is a fixed offset from UTC.
    - A query is given by what it resolved to: [{ data, error }]. *)

From Stdlib Require Import ZArith NArith List String Ascii Bool Lia.
From Stdlib Require Import SpecFloat.
From Stdlib Require Import Reals Lra.
From Stdlib Require Import Sorting.Sorted Sorting.Permutation.
Import ListNotations.

Local Open Scope Z_scope.

(* ===================================================================== *)
(** ** JavaScript numbers, values and the library functions the code uses *)
(* ===================================================================== *)

Module JS.

Definition prec : Z := 53.
Definition emax : Z := 1024.

(** A Number value: [S754_nan] is NaN, [S754_zero true] is -0. *)
Definition number : Type := spec_float.

Definition NaN : number := S754_nan.
Definition zero : number := S754_zero false.

(** [x + y], [x * y], [x / y] on Numbers. *)
Definition add (x y : number) : number := SFadd prec emax x y.
Definition mul (x y : number) : number := SFmul prec emax x y.
Definition div (x y : number) : number := SFdiv prec emax x y.

(** The Number that an integer literal, an array length or an integral
    time value denotes (rounded to nearest even beyond 2^53). *)
Definition of_Z (z : Z) : number := binary_normalize prec emax z 0 false.
Definition of_nat (n : nat) : number := of_Z (Z.of_nat n).

(** [x >= y], [x > y], [x < y], [x === y] on Numbers: false on NaN. *)
Definition ge (x y : number) : bool := SFleb y x.
Definition gt (x y : number) : bool := SFltb y x.
Definition lt (x y : number) : bool := SFltb x y.
Definition le (x y : number) : bool := SFleb x y.
Definition strict_eq (x y : number) : bool := SFeqb x y.

Definition is_nan (x : number) : bool :=
  match x with S754_nan => true | _ => false end.

Definition is_finite (x : number) : bool :=
  match x with S754_zero _ | S754_finite _ _ _ => true | _ => false end.

(** ToBoolean on a Number: NaN, +0 and -0 are falsy. *)
Definition truthy (x : number) : bool :=
  match x with
  | S754_nan | S754_zero _ => false
  | _ => true
  end.

(** The values a numeric column of a fetched row can hold. *)
Inductive value : Type :=
| undefined
| null
| num (x : number).

(** ToNumber: [undefined] is NaN and [null] is +0. *)
Definition ToNumber (v : value) : number :=
  match v with
  | undefined => NaN
  | null => zero
  | num x => x
  end.

(** [v !== null]. *)
Definition not_null (v : value) : bool :=
  match v with null => false | _ => true end.

(** [v || d] with a Number default [d]. *)
Definition or_num (v : value) (d : number) : number :=
  match v with
  | num x => if truthy x then x else d
  | _ => d
  end.

(** [x || d] on a Number that is already computed. *)
Definition num_or (x d : number) : number := if truthy x then x else d.

(** *** Decimal digits *)

Definition digit_char (d : N) : ascii :=
  ascii_of_N (48 + d mod 10).

Fixpoint digits_fuel (fuel : nat) (n : N) (acc : string) : string :=
  let acc' := String (digit_char n) acc in
  match fuel with
  | O => acc'
  | S fuel' =>
      if (n / 10 =? 0)%N then acc' else digits_fuel fuel' (n / 10)%N acc'
  end.

(** The decimal representation of [n], with no leading zero. *)
Definition digits (n : N) : string :=
  digits_fuel (N.to_nat (N.size n)) n EmptyString.

Definition digit_of (c : ascii) : option N :=
  let k := N_of_ascii c in
  if ((48 <=? k) && (k <=? 57))%N then Some (k - 48)%N else None.

(** Reads the longest prefix of decimal digits: its value on top of [acc],
    how many digits were read on top of [cnt], and the rest. *)
Fixpoint read_digits (s : string) (acc : N) (cnt : nat) : N * nat * string :=
  match s with
  | EmptyString => (acc, cnt, s)
  | String c s' =>
      match digit_of c with
      | Some d => read_digits s' (10 * acc + d)%N (S cnt)
      | None => (acc, cnt, s)
      end
  end.

(** *** From a decimal to the nearest Number *)

(** The Number nearest to [(-1)^neg * d * 10^e], ties to even. *)
Definition of_decimal (neg : bool) (d : N) (e : Z) : number :=
  match d with
  | N0 => S754_zero neg
  | Npos p =>
      if 0 <=? e then
        binary_normalize prec emax
          ((if neg then Z.neg p else Z.pos p) * 10 ^ e) 0 neg
      else
        let '(mz, ez, lz) :=
          SFdiv_core_binary prec emax (Z.pos p) 0 (10 ^ (- e)) 0 in
        binary_round_aux prec emax neg mz ez lz
  end.

(** *** Number.prototype.toFixed(1) *)

(** For [x = m * 2^e > 0], the integer [n] for which [n / 10 - x] is as
    close to zero as possible, the larger one when there are two. *)
Definition tenths (m : positive) (e : Z) : N :=
  Z.to_N
    (if 0 <=? e then 10 * Z.pos m * 2 ^ e
     else (20 * Z.pos m + 2 ^ (- e)) / 2 ^ (1 - e)).

(** [10^21 <= m * 2^e]. *)
Definition at_least_1e21 (m : positive) (e : Z) : bool :=
  if 0 <=? e then 10 ^ 21 <=? Z.pos m * 2 ^ e
  else 10 ^ 21 * 2 ^ (- e) <=? Z.pos m.

(** The integer value of a Number that is at least 10^21. *)
Definition int_value (m : positive) (e : Z) : Z := Z.pos m * 2 ^ e.

(** Number of decimal digits of a positive integer. *)
Definition ndigits (x : Z) : nat := String.length (digits (Z.to_N x)).

(** Number::toString on [x >= 10^21], given as [m * 2^e]: the shortest
    digit string [s] (of [k] digits) with [s * 10^(n-k)] rounding to [x],
    the closest to [x] of those, in exponential notation.  [search] tries
    [k = 1, 2, ...]; with 17 significant digits the lower candidate always
    reads back as [x]. *)
Definition candidate (x : number) (xv : Z) (d : nat) (k : nat) : option (Z * nat) :=
  let p := 10 ^ Z.of_nat (d - k) in
  let lo := xv / p in
  let hi := lo + 1 in
  let ok s := match x, of_Z (s * p) with
              | S754_finite _ m1 e1, S754_finite _ m2 e2 =>
                  (Z.pos m1 =? Z.pos m2) && (e1 =? e2)
              | _, _ => false
              end in
  let dlo := xv - lo * p in
  let dhi := hi * p - xv in
  let pick s := if s =? 10 ^ Z.of_nat k then Some (1, S d) else Some (s, d) in
  match ok lo, ok hi with
  | true, true =>
      if dlo <? dhi then pick lo
      else if dhi <? dlo then pick hi
      else if Z.even lo then pick lo else pick hi
  | true, false => pick lo
  | false, true => pick hi
  | false, false => None
  end.

Fixpoint search (x : number) (xv : Z) (d : nat) (k : nat) (fuel : nat) : Z * nat :=
  match candidate x xv d k with
  | Some r => r
  | None =>
      match fuel with
      | O => (xv, d)
      | S fuel' => search x xv d (S k) fuel'
      end
  end.

(** Drops trailing zeros of a digit string's value. *)
Fixpoint strip_zeros (fuel : nat) (s : Z) : Z :=
  match fuel with
  | O => s
  | S fuel' => if (s mod 10 =? 0) && (0 <? s) then strip_zeros fuel' (s / 10) else s
  end.

Definition toString_large (m : positive) (e : Z) : string :=
  let x := S754_finite false m e in
  let xv := int_value m e in
  let d := ndigits xv in
  let '(s, n) := search x xv d 1 (d - 1) in
  let s := strip_zeros d s in
  let ds := digits (Z.to_N s) in
  let mant :=
    match ds with
    | String c EmptyString => ds
    | String c rest => String c (String "."%char rest)
    | EmptyString => ds
    end in
  (mant ++ "e+" ++ digits (N.of_nat (n - 1)))%string.

Definition toFixed1 (x : number) : string :=
  match x with
  | S754_nan => "NaN"
  | S754_infinity false => "Infinity"
  | S754_infinity true => "-Infinity"
  | S754_zero _ => "0.0"
  | S754_finite s m e =>
      ((if s then "-" else "") ++
       (if at_least_1e21 m e then toString_large m e
        else
          let n := tenths m e in
          digits (n / 10)%N ++ "." ++ digits (n mod 10)%N))%string
  end.

(** *** Number(string) on decimal literals *)

(** Optional sign of a literal or of an exponent. *)
Definition read_sign (s : string) : bool * string :=
  match s with
  | String "-"%char s' => (true, s')
  | String "+"%char s' => (false, s')
  | _ => (false, s)
  end.

(** Optional exponent part: [e], optional sign, at least one digit. *)
Definition read_exponent (s : string) : option (Z * string) :=
  match s with
  | String c s' =>
      if (Ascii.eqb c "e" || Ascii.eqb c "E")%bool then
        let '(neg, s1) := read_sign s' in
        let '(v, cnt, rest) := read_digits s1 0%N O in
        match cnt with
        | O => None
        | S _ => Some (if neg then - Z.of_N v else Z.of_N v, rest)
        end
      else Some (0, s)
  | EmptyString => Some (0, s)
  end.

(** StringToNumber restricted to StrDecimalLiteral without surrounding
    white space (what [toFixed] produces); the empty string is +0, and a
    string outside this grammar is NaN. *)
Definition Number_ (s : string) : number :=
  match s with
  | EmptyString => zero
  | _ =>
      let '(neg, s0) := read_sign s in
      if String.eqb s0 "Infinity" then S754_infinity neg
      else
        let '(vi, ci, s1) := read_digits s0 0%N O in
        let '(v, cf, s2) :=
          match s1 with
          | String "."%char s1' =>
              let '(v, c, r) := read_digits s1' vi O in (v, c, r)
          | _ => (vi, O, s1)
          end in
        match (ci + cf)%nat with
        | O => NaN
        | S _ =>
            match read_exponent s2 with
            | Some (ex, EmptyString) => of_decimal neg v (ex - Z.of_nat cf)
            | _ => NaN
            end
        end
  end.

(** *** Math.round *)

(** The integer nearest to [x], the larger one on a tie; the sign of a
    zero result is that of [x]. *)
Definition Math_round (x : number) : number :=
  match x with
  | S754_finite s m e =>
      if 0 <=? e then x
      else
        let sm := if s then Z.neg m else Z.pos m in
        let n := (2 * sm + 2 ^ (- e)) / 2 ^ (1 - e) in
        binary_normalize prec emax n 0 s
  | _ => x
  end.

End JS.


(* ===================================================================== *)
(** ** Date: the part of the ECMAScript time model the bucketer uses *)
(* ===================================================================== *)

Module Date.

(** A Date holds a time value: milliseconds since 1970-01-01T00:00:00Z. *)
Definition time : Type := Z.

Definition msPerDay : Z := 86400000.

Definition Day (t : time) : Z := t / msPerDay.
Definition TimeWithinDay (t : time) : Z := t mod msPerDay.
Definition WeekDay (t : time) : Z := (Day t + 4) mod 7.

(** Year and month (0 = January) of a day number, proleptic Gregorian. *)
Definition year_month (day : Z) : Z * Z :=
  let z := day + 719468 in
  let era := z / 146097 in
  let doe := z - era * 146097 in
  let yoe := (doe - doe / 1460 + doe / 36524 - doe / 146096) / 365 in
  let doy := doe - (365 * yoe + yoe / 4 - yoe / 100) in
  let mp := (5 * doy + 2) / 153 in
  let m := if mp <? 10 then mp + 2 else mp - 10 in
  (yoe + era * 400 + (if m <=? 1 then 1 else 0), m).

Definition YearFromTime (t : time) : Z := fst (year_month (Day t)).
Definition MonthFromTime (t : time) : Z := snd (year_month (Day t)).

Definition DayFromYear (y : Z) : Z :=
  365 * (y - 1970) + (y - 1969) / 4 - (y - 1901) / 100 + (y - 1601) / 400.

Definition InLeapYear (y : Z) : bool :=
  ((y mod 4 =? 0) && negb (y mod 100 =? 0)) || (y mod 400 =? 0).

(** Days of the year before the first of month [m]. *)
Definition DaysBeforeMonth (leap : bool) (m : Z) : Z :=
  let l := if leap then 1 else 0 in
  nth (Z.to_nat m)
    [0; 31; 59 + l; 90 + l; 120 + l; 151 + l; 181 + l; 212 + l; 243 + l;
     273 + l; 304 + l; 334 + l] 0.

(** Day number of the first of month [m] of year [y]. *)
Definition FirstOfMonth (y m : Z) : Z :=
  DayFromYear y + DaysBeforeMonth (InLeapYear y) m.

Definition DateFromTime (t : time) : Z :=
  Day t - FirstOfMonth (YearFromTime t) (MonthFromTime t) + 1.

(** MakeDay for a month in 0..11, and MakeDate. *)
Definition MakeDay (y m dt : Z) : Z := FirstOfMonth y m + dt - 1.
Definition MakeDate (day tm : Z) : time := day * msPerDay + tm.

Section LocalTime.
(** The local time zone of the runtime, as a fixed offset from UTC in
    milliseconds (no daylight-saving transitions). *)
Variable tza : Z.

Definition LocalTime (t : time) : Z := t + tza.
Definition UTC (t : Z) : time := t - tza.

(** [d.getDate()], [d.getDay()], and the time value after
    [d.setDate(dt)]: all three work on local time. *)
Definition getDate (t : time) : Z := DateFromTime (LocalTime t).
Definition getDay (t : time) : Z := WeekDay (LocalTime t).
Definition setDate (t : time) (dt : Z) : time :=
  let lt := LocalTime t in
  UTC (MakeDate (MakeDay (YearFromTime lt) (MonthFromTime lt) dt)
                (TimeWithinDay lt)).
End LocalTime.

(** [k] decimal digits of [n], padded with zeros on the left. *)
Definition pad (k : nat) (n : Z) : string :=
  let ds := JS.digits (Z.to_N n) in
  (string_of_list_ascii (repeat "0"%char (k - String.length ds)) ++ ds)%string.

(** [d.toISOString().split('T')[0]]: the UTC calendar date. *)
Definition isoDate (t : time) : string :=
  let y := YearFromTime t in
  let year :=
    if (0 <=? y) && (y <=? 9999) then pad 4 y
    else String (if (y <? 0)%Z then "-"%char else "+"%char) (pad 6 (Z.abs y)) in
  let month := pad 2 (MonthFromTime t + 1) in
  let day := pad 2 (DateFromTime t) in
  (year ++ "-" ++ month ++ "-" ++ day)%string.

End Date.

(* ===================================================================== *)
(** ** Map: insertion-ordered, keyed by strings *)
(* ===================================================================== *)

Module Map.
Section Map.
Context {V : Type}.

(** The entries in insertion order; keys are unique. *)
Definition t : Type := list (string * V).

Definition empty : t := [].

Fixpoint has (k : string) (m : t) : bool :=
  match m with
  | [] => false
  | (k', _) :: m' => String.eqb k' k || has k m'
  end.

Fixpoint get (k : string) (m : t) : option V :=
  match m with
  | [] => None
  | (k', v) :: m' => if String.eqb k' k then Some v else get k m'
  end.

(** [m.set(k, v)]: an existing key keeps its position. *)
Fixpoint set (k : string) (v : V) (m : t) : t :=
  match m with
  | [] => [(k, v)]
  | (k', v') :: m' =>
      if String.eqb k' k then (k', v) :: m' else (k', v') :: set k v m'
  end.

Definition entries (m : t) : list (string * V) := m.
End Map.
Arguments t : clear implicits.
End Map.

(* ===================================================================== *)
(** ** lib/supabaseData.ts *)
(* ===================================================================== *)

(** What a query resolves to: [{ data, error }]. *)
Record PostgrestError : Type := { message : string }.

Record response (A : Type) : Type :=
  { data : option (list A); error : option PostgrestError }.
Arguments data {A} _.
Arguments error {A} _.
Arguments Build_response {A} _ _.

(** An async function either throws (the promise rejects) or returns. *)
Inductive outcome (A : Type) : Type :=
| Throw (e : PostgrestError)
| Return (a : A).
Arguments Throw {A} _.
Arguments Return {A} _.

Module SupabaseData.
Import JS.

Record DashboardStats : Type :=
  { totalAgents : number;
    averageScore : number;
    testsRun : number;
    passRate : number }.

Record ScoreHistory : Type := { date : string; score : number }.

(** A row of [vw_agent_performance_summary] restricted to the columns
    [last_test_score, total_testes_executados]. *)
Record AgentScores : Type :=
  { last_test_score : value;
    total_testes_executados : value }.

(** [r] is what the [select] on the view resolved to. *)
Definition fetchDashboardStats (r : response AgentScores) : outcome DashboardStats :=
  match error r with
  | Some agentsError => Throw agentsError
  | None =>
      let agents := data r in
      let totalAgents :=
        match agents with
        | Some l => num_or (of_nat (List.length l)) zero
        | None => zero
        end in
      let validScores :=
        match agents with
        | Some l => filter (fun a => not_null (last_test_score a)) l
        | None => []
        end in
      let averageScore :=
        if (0 <? List.length validScores)%nat then
          div (fold_left (fun sum a => add sum (or_num (last_test_score a) zero))
                         validScores zero)
              (of_nat (List.length validScores))
        else zero in
      let testsRun :=
        match agents with
        | Some l =>
            num_or (fold_left
                      (fun sum a => add sum (ToNumber (total_testes_executados a)))
                      l zero) zero
        | None => zero
        end in
      let passedTests :=
        List.length (filter (fun a => ge (or_num (last_test_score a) zero) (of_Z 8))
                       validScores) in
      let passRate :=
        if (0 <? List.length validScores)%nat then
          mul (div (of_nat passedTests) (of_nat (List.length validScores))) (of_Z 100)
        else zero in
      Return {| totalAgents := totalAgents;
                averageScore := Number_ (toFixed1 averageScore);
                testsRun := testsRun;
                passRate := Number_ (toFixed1 passRate) |}
  end.

(** A row of [vw_test_results_history] restricted to the columns
    [tested_at, overall_score]; [tested_at] is given by the time value
    that [new Date(test.tested_at)] holds. *)
Record TestScore : Type :=
  { tested_at : Date.time;
    overall_score : number }.

Section ScoreHistory.
(** The runtime's offset from UTC, in milliseconds. *)
Variable tza : Z.

(** The key of a test's bucket: the ISO date of [weekStart]. *)
Definition weekKey (test : TestScore) : string :=
  let date := tested_at test in
  let weekStart :=
    Date.setDate tza date (Date.getDate tza date - Date.getDay tza date) in
  Date.isoDate weekStart.

(** The body of the [forEach]. *)
Definition addTest (weeklyScores : Map.t (list number)) (test : TestScore)
  : Map.t (list number) :=
  let key := weekKey test in
  let weeklyScores :=
    if negb (Map.has key weeklyScores) then Map.set key [] weeklyScores
    else weeklyScores in
  match Map.get key weeklyScores with
  | Some scores => Map.set key (scores ++ [overall_score test]) weeklyScores
  | None => weeklyScores
  end.

Definition groupByWeek (rows : list TestScore) : Map.t (list number) :=
  fold_left addTest rows Map.empty.

Definition weekPoint (entry : string * list number) : ScoreHistory :=
  let '(date, scores) := entry in
  {| date := date;
     score := Number_ (toFixed1 (div (fold_left add scores zero)
                                     (of_nat (List.length scores)))) |}.

(** [a.slice(-5)]. *)
Definition slice_last5 {A : Type} (a : list A) : list A :=
  skipn (List.length a - 5) a.

Definition fetchScoreHistory (r : response TestScore) : outcome (list ScoreHistory) :=
  match error r with
  | Some e => Throw e
  | None =>
      let weeklyScores :=
        match data r with
        | Some rows => groupByWeek rows
        | None => Map.empty
        end in
      Return (slice_last5 (map weekPoint (Map.entries weeklyScores)))
  end.
End ScoreHistory.

(** Modelled from the spec: the row type [AgentPerformanceSummary] of
    [@/types/database] (its declaration is not among the sources), with the
    columns of the agent-performance view under the names the code reads;
    nullable columns are [option]s or [value]s.  The rows live in a module
    of their own since they share column names with the selections above. *)
Module Agent.
Record AgentPerformanceSummary : Type :=
  { agent_version_id : string;
    agent_name : string;
    version : string;
    status : string;
    is_active : bool;
    framework_approved : bool;
    created_at : string;
    last_test_at : option string;
    last_test_score : value;
    total_testes_executados : value;
    conversas_7d : number;
    resolvidas_7d : number;
    escalations_7d : number }.
End Agent.

(** The object that [mapAgentToLegacyFormat] returns. *)
Module Legacy.
Record LegacyAgent : Type :=
  { id : string;
    name : string;
    version : string;
    score : number;
    status : string;
    lastEvaluation : string }.
End Legacy.

(** [s || d] on a nullable string: null and the empty string are falsy. *)
Definition str_or (s : option string) (d : string) : string :=
  match s with
  | Some EmptyString | None => d
  | Some s' => s'
  end.

Definition mapAgentToLegacyFormat (agent : Agent.AgentPerformanceSummary)
  : Legacy.LegacyAgent :=
  {| Legacy.id := Agent.agent_version_id agent;
     Legacy.name := Agent.agent_name agent;
     Legacy.version := Agent.version agent;
     Legacy.score := or_num (Agent.last_test_score agent) zero;
     Legacy.status := Agent.status agent;
     Legacy.lastEvaluation := str_or (Agent.last_test_at agent) (Agent.created_at agent) |}.

End SupabaseData.

(* ===================================================================== *)
(** ** app/tests/page.tsx: the test-history page *)
(* ===================================================================== *)

Module TestsPage.
Import JS.

(** Modelled from the spec: the row type [LatestTestResult] of
    [@/types/database] (its declaration is not among the sources), with the
    columns of the test-results-history view under the names the code
    reads; [tested_at] is given by the time value that
    [new Date(test.tested_at)] holds. *)
Record LatestTestResult : Type :=
  { test_result_id : string;
    agent_version_id : string;
    agent_name : string;
    version : string;
    overall_score : number;
    test_duration_ms : number;
    tested_at : Date.time }.

Inductive TestStatus : Type := passed | warning | failed.

Inductive StatusFilter : Type :=
| status_all
| status_is (s : TestStatus).

Inductive ScoreFilter : Type := score_all | high | medium | low.

Definition TestStatus_eqb (a b : TestStatus) : bool :=
  match a, b with
  | passed, passed | warning, warning | failed, failed => true
  | _, _ => false
  end.

(** [s.toLowerCase()] on the ASCII letters; other characters are kept. *)
Definition lower_char (c : ascii) : ascii :=
  let k := N_of_ascii c in
  if ((65 <=? k) && (k <=? 90))%N then ascii_of_N (k + 32) else c.

Fixpoint toLowerCase (s : string) : string :=
  match s with
  | EmptyString => EmptyString
  | String c s' => String (lower_char c) (toLowerCase s')
  end.

(** [s.includes(q)]. *)
Fixpoint includes (s q : string) : bool :=
  prefix q s ||
  match s with
  | EmptyString => false
  | String _ s' => includes s' q
  end.

(** [a.sort(cmp)]: the stable sort; [x] goes before [y] when
    [cmp x y <= 0] and [x] came first. *)
Section Sort.
Context {A : Type} (cmp : A -> A -> Z).

Fixpoint insert (x : A) (l : list A) : list A :=
  match l with
  | [] => [x]
  | y :: l' => if cmp x y <=? 0 then x :: l else y :: insert x l'
  end.

Definition sort (l : list A) : list A := fold_right insert [] l.
End Sort.

Definition getTestStatus (score : number) : TestStatus :=
  if ge score (of_Z 8) then passed
  else if ge score (of_Z 6) then warning
  else failed.

Section Page.
Variable testResults : list LatestTestResult.
Variable searchQuery : string.
Variable statusFilter : StatusFilter.
Variable scoreFilter : ScoreFilter.

Definition matchesSearch (test : LatestTestResult) : bool :=
  includes (toLowerCase (agent_name test)) (toLowerCase searchQuery).

Definition matchesStatus (test : LatestTestResult) : bool :=
  let status := getTestStatus (overall_score test) in
  match statusFilter with
  | status_all => true
  | status_is s => TestStatus_eqb status s
  end.

Definition matchesScore (test : LatestTestResult) : bool :=
  match scoreFilter with
  | score_all => true
  | high => ge (overall_score test) (of_Z 8)
  | medium => ge (overall_score test) (of_Z 7) && lt (overall_score test) (of_Z 8)
  | low => lt (overall_score test) (of_Z 7)
  end.

Definition byTestedAtDesc (a b : LatestTestResult) : Z :=
  tested_at b - tested_at a.

Definition filteredTests : list LatestTestResult :=
  sort byTestedAtDesc
    (filter (fun test => matchesSearch test && matchesStatus test && matchesScore test)
            testResults).

Definition totalTests : nat := List.length testResults.

Definition passedTests : nat :=
  List.length
    (filter (fun t => TestStatus_eqb (getTestStatus (overall_score t)) passed)
            testResults).

Definition averageDuration : number :=
  if (0 <? totalTests)%nat then
    Math_round
      (div (div (fold_left (fun acc test => add acc (test_duration_ms test))
                           testResults zero)
                (of_nat totalTests))
           (of_Z 1000))
  else zero.

(** The text of the pass-rate badge. *)
Definition passRateBadge : string :=
  ((if (0 <? totalTests)%nat then
      toFixed1 (mul (div (of_nat passedTests) (of_nat totalTests)) (of_Z 100))
    else "0") ++ "%")%string.
End Page.

End TestsPage.

(* ===================================================================== *)
(** ** Vocabulary of the statements

    The definitions below are not part of the program: they name what the
    lemmas and theorems speak about. *)
(* ===================================================================== *)

Import JS.
Import SupabaseData.

(** *** Reals and rounding *)

(** Powers of two as reals, and the real that a mantissa and an exponent
    denote. *)
Definition bpow (e : Z) : R := powerRZ 2 e.
Definition F2R (m e : Z) : R := (IZR m * bpow e)%R.

(** Where the real [x] stands between the consecutive multiples [m] and
    [m + 1] of [2^e]: on [m], or strictly between them, below, on or above
    the middle. *)
Definition inbetween (x : R) (m e : Z) (l : location) : Prop :=
  match l with
  | loc_Exact => x = F2R m e
  | loc_Inexact c =>
      (F2R m e < x < F2R (m + 1) e)%R /\
      match c with
      | Lt => (x < F2R m e + bpow e / 2)%R
      | Eq => (x = F2R m e + bpow e / 2)%R
      | Gt => (F2R m e + bpow e / 2 < x)%R
      end
  end.

(** The state that [shr_fexp] leaves: a non-negative mantissa at its
    canonical exponent. *)
Definition canonical_state (m e : Z) : Prop :=
  0 <= m /\ e = fexp prec emax (Zdigits2 m + e).

(** The real value of a finite Number (0 for the others). *)
Definition val (x : number) : R :=
  match x with
  | S754_finite s m e => F2R (if s then Z.neg m else Z.pos m) e
  | _ => 0%R
  end.

(** A valid Number that is +0, or positive and finite. *)
Definition good (x : number) : Prop :=
  x = S754_zero false \/
  exists m e, x = S754_finite false m e /\ SpecFloat.bounded prec emax m e = true.

(** [r] is [x] rounded to nearest, ties to even. *)
Definition rounds_to (x : R) (r : number) : Prop :=
  good r /\
  exists m e l,
    canonical_state m e /\ inbetween x m e l /\
    val r = F2R (round_nearest_even m l) e.

(** The number of tenths that [toFixed(1)] writes for a Number. *)
Definition tenths_of (b : number) : N :=
  match b with
  | S754_finite _ m e => tenths m e
  | _ => 0%N
  end.

(** *** Dashboard statistics *)

(** The response of a successful query. *)
Definition fetched {A : Type} (rows : list A) : response A :=
  {| data := Some rows; error := None |}.

(** The pass rate as a function of the two counts it is computed from. *)
Definition passRate_of (passed valid : nat) : number :=
  Number_ (toFixed1
             (if (0 <? valid)%nat then
                mul (div (of_nat passed) (of_nat valid)) (of_Z 100)
              else zero)).

(** Records that count in the denominator, and in the numerator. *)
Definition has_score (a : AgentScores) : bool := not_null (last_test_score a).
Definition passes (a : AgentScores) : bool :=
  ge (or_num (last_test_score a) zero) (of_Z 8).





(** An agent row to try the mapper on. *)
Definition sample_agent (last : option string) (sc : value) : Agent.AgentPerformanceSummary :=
  {| Agent.agent_version_id := "7f3c";
     Agent.agent_name := "Sales Bot";
     Agent.version := "1.2.0";
     Agent.status := "active";
     Agent.is_active := true;
     Agent.framework_approved := false;
     Agent.created_at := "2024-01-01";
     Agent.last_test_at := last;
     Agent.last_test_score := sc;
     Agent.total_testes_executados := num (of_Z 4);
     Agent.conversas_7d := of_Z 12;
     Agent.resolvidas_7d := of_Z 9;
     Agent.escalations_7d := of_Z 1 |}.

(** *** Filtering and sorting *)

(** [x] may stand before [y] for the comparator [cmp]. *)
Definition before {A : Type} (cmp : A -> A -> Z) (x y : A) : Prop := cmp x y <= 0.

(** Most recent first. *)
Definition not_older (a b : TestsPage.LatestTestResult) : Prop :=
  TestsPage.tested_at b <= TestsPage.tested_at a.

(** *** Weekly buckets *)

(** A Map whose entries are the keys [ks], each with the value [f] gives. *)
Definition tabulate {V : Type} (f : string -> V) (ks : list string) : Map.t V :=
  map (fun k => (k, f k)) ks.

(** The distinct keys of a list, in order of first appearance. *)
Definition first_seen (ks : list string) : list string :=
  fold_left
    (fun acc k => if existsb (fun k' => String.eqb k' k) acc then acc else acc ++ [k])
    ks [].

(** The input records of the bucket [k], in input order, and their scores. *)
Definition members (tza : Z) (k : string) (rows : list TestScore) : list TestScore :=
  filter (fun r => String.eqb (weekKey tza r) k) rows.

Definition bucket_scores (tza : Z) (rows : list TestScore) (k : string) : list number :=
  map overall_score (members tza k rows).


(** The ISO date of a day number. *)
Definition isoDay (d : Z) : string := Date.isoDate (d * Date.msPerDay).

(** The day on which the week of day [d] starts: the Sunday on or
    before [d]. *)
Definition weekStartDay (d : Z) : Z := d - (d + 4) mod 7.

(** Records in ascending order of [tested_at], as the query returns them. *)
Definition ascending (rows : list TestScore) : Prop :=
  StronglySorted (fun a b => tested_at a <= tested_at b) rows.

(* ===================================================================== *)
(** ** Facts about Numbers *)
(* ===================================================================== *)

(** The embedding computes what a JavaScript engine computes. *)
Example add_is_binary64 :
  add (Number_ "0.1") (Number_ "0.2") = Number_ "0.30000000000000004" /\
  strict_eq (add (Number_ "0.1") (Number_ "0.2")) (Number_ "0.3") = false /\
  div (Number_ "1") (Number_ "3") = S754_finite false 6004799503160661 (-54).
Proof. repeat split; vm_compute; reflexivity. Qed.

Example toFixed1_values :
  toFixed1 (Number_ "8.25") = "8.3"%string /\
  toFixed1 (Number_ "8.35") = "8.3"%string /\
  toFixed1 (Number_ "8.15") = "8.2"%string /\
  toFixed1 (Number_ "-0.04") = "-0.0"%string /\
  toFixed1 (Number_ "1e21") = "1e+21"%string /\
  toFixed1 (Number_ "123456789012345678901234") = "1.2345678901234569e+23"%string /\
  toFixed1 (div zero zero) = "NaN"%string.
Proof. repeat split; vm_compute; reflexivity. Qed.

Example Math_round_values :
  Math_round (Number_ "2.5") = Number_ "3" /\
  Math_round (Number_ "-2.5") = Number_ "-2" /\
  Math_round (Number_ "2.4999") = Number_ "2" /\
  Math_round (Number_ "-0.4") = Number_ "-0".
Proof. repeat split; vm_compute; reflexivity. Qed.

Example isoDate_values :
  Date.isoDate 0 = "1970-01-01"%string /\
  Date.isoDate (-1) = "1969-12-31"%string /\
  Date.isoDate 951782400000 = "2000-02-29"%string /\
  Date.isoDate 1704625200000 = "2024-01-07"%string /\
  Date.WeekDay 1704625200000 = 0 /\
  Date.getDate 3600000 1704670200000 = 8 /\
  Date.getDay 3600000 1704670200000 = 1.
Proof. repeat split; vm_compute; reflexivity. Qed.

Section NumberFacts.

Lemma iter_pos_invariant {A : Type} (P : A -> Prop) (f : A -> A) :
  (forall x, P x -> P (f x)) ->
  forall n x, P x -> P (SpecFloat.iter_pos f n x).
Proof.
  intros Hf.
  induction n as [n IH | n IH | ]; intros x Hx; simpl; auto.
Qed.

Lemma shr_1_nonneg mrs : 0 <= shr_m mrs -> 0 <= shr_m (shr_1 mrs).
Proof.
  destruct mrs as [m r s]; simpl.
  destruct m as [ | [p | p | ] | p ]; simpl; lia.
Qed.

Lemma shr_nonneg mrs e n : 0 <= shr_m mrs -> 0 <= shr_m (fst (shr mrs e n)).
Proof.
  intros H. destruct n as [ | p | p ]; simpl; auto.
  apply (iter_pos_invariant (fun r => 0 <= shr_m r)); auto using shr_1_nonneg.
Qed.

Lemma shr_record_of_loc_m m l : shr_m (shr_record_of_loc m l) = m.
Proof. destruct l as [ | [ | | ] ]; reflexivity. Qed.

Lemma shr_fexp_nonneg m e l :
  0 <= m -> 0 <= shr_m (fst (shr_fexp prec emax m e l)).
Proof.
  intros H. unfold shr_fexp. apply shr_nonneg.
  rewrite shr_record_of_loc_m. exact H.
Qed.

Lemma round_nearest_even_nonneg m l : 0 <= m -> 0 <= round_nearest_even m l.
Proof.
  intros H. destruct l as [ | [ | | ] ]; simpl; try lia.
  destruct (Z.even m); lia.
Qed.

(** Rounding a non-negative mantissa never yields NaN. *)
Lemma binary_round_aux_not_nan sx mx ex lx :
  0 <= mx -> is_nan (binary_round_aux prec emax sx mx ex lx) = false.
Proof.
  intros H. unfold binary_round_aux.
  pose proof (shr_fexp_nonneg mx ex lx H) as H1.
  destruct (shr_fexp prec emax mx ex lx) as [mrs' e']. simpl in H1.
  pose proof (shr_fexp_nonneg _ e' loc_Exact
                (round_nearest_even_nonneg _ (loc_of_shr_record mrs') H1)) as H2.
  destruct (shr_fexp prec emax
              (round_nearest_even (shr_m mrs') (loc_of_shr_record mrs')) e' loc_Exact)
    as [mrs'' e'']. simpl in H2.
  destruct (shr_m mrs'') as [ | p | p ]; try reflexivity; try lia.
  destruct (e'' <=? emax - prec); reflexivity.
Qed.

Lemma binary_round_not_nan sx mx ex :
  is_nan (binary_round prec emax sx mx ex) = false.
Proof.
  unfold binary_round.
  destruct (shl_align mx ex _) as [mz ez].
  apply binary_round_aux_not_nan. lia.
Qed.

Lemma binary_normalize_not_nan m e s :
  is_nan (binary_normalize prec emax m e s) = false.
Proof.
  destruct m; simpl; auto using binary_round_not_nan.
Qed.

(** Adding a finite Number keeps a sum away from NaN. *)
Lemma add_not_nan x y :
  is_nan x = false -> is_finite y = true -> is_nan (add x y) = false.
Proof.
  unfold add.
  destruct x as [sx | sx | | sx mx ex], y as [sy | sy | | sy my ey];
    simpl; intros Hx Hy; try discriminate; try reflexivity.
  - destruct sx, sy; reflexivity.
  - apply binary_normalize_not_nan.
Qed.

Lemma add_nan_l y : add NaN y = NaN.
Proof. reflexivity. Qed.

Lemma of_nat_not_nan n : is_nan (of_nat n) = false.
Proof. apply binary_normalize_not_nan. Qed.

(** [SFcompare] read in the other direction. *)
Lemma SFcompare_antisym x y :
  SFcompare y x = option_map CompOpp (SFcompare x y).
Proof.
  destruct x as [sx | sx | | sx mx ex], y as [sy | sy | | sy my ey];
    simpl; try reflexivity;
    try (destruct sx; reflexivity); try (destruct sy; reflexivity);
    try (destruct sx, sy; reflexivity).
  destruct sx, sy; simpl; try reflexivity;
    rewrite (Z.compare_antisym ex ey);
    destruct (ex ?= ey); simpl; try reflexivity;
    rewrite (Pos.compare_cont_antisym mx my Eq); simpl;
    try rewrite CompOpp_involutive; reflexivity.
Qed.

Lemma SFcompare_not_nan x y :
  is_nan x = false -> is_nan y = false -> exists c, SFcompare x y = Some c.
Proof.
  destruct x as [sx | sx | | sx mx ex], y as [sy | sy | | sy my ey];
    simpl; intros; try discriminate; eauto.
Qed.

(** On Numbers other than NaN, [x >= y] fails exactly when [x < y]. *)
Lemma ge_false_lt x y :
  is_nan x = false -> is_nan y = false -> ge x y = false <-> lt x y = true.
Proof.
  intros Hx Hy. unfold ge, lt, SFleb, SFltb.
  rewrite (SFcompare_antisym x y).
  destruct (SFcompare_not_nan x y Hx Hy) as [c ->].
  destruct c; simpl; split; intros; congruence.
Qed.

Lemma ge_true_not_nan x y : ge x y = true -> is_nan x = false.
Proof.
  unfold ge, SFleb. destruct x; try reflexivity.
  destruct y; simpl; discriminate.
Qed.

Lemma SFcompare_refl x : is_nan x = false -> SFcompare x x = Some Eq.
Proof.
  destruct x as [sx | sx | | sx mx ex]; simpl; intros H;
    try discriminate; try reflexivity.
  - destruct sx; reflexivity.
  - destruct sx; rewrite Z.compare_refl, Pos.compare_cont_refl; reflexivity.
Qed.

End NumberFacts.

Section OrderFacts.

Local Ltac cmp_cases :=
  repeat match goal with
  | |- context [Pos.compare_cont Eq ?a ?b] =>
      change (Pos.compare_cont Eq a b) with (Pos.compare a b);
      destruct (Pos.compare_spec a b)
  | |- context [Z.compare ?a ?b] => destruct (Z.compare_spec a b)
  end.

(** [<] on Numbers is transitive. *)
Lemma lt_trans x y z : lt x y = true -> lt y z = true -> lt x z = true.
Proof.
  unfold lt, SFltb.
  destruct x as [sx | sx | | sx mx ex], y as [sy | sy | | sy my ey],
           z as [sz | sz | | sz mz ez]; simpl;
    try discriminate; try reflexivity;
    try (destruct sx; simpl; try discriminate; try reflexivity);
    try (destruct sy; simpl; try discriminate; try reflexivity);
    try (destruct sz; simpl; try discriminate; try reflexivity);
    cmp_cases; simpl; intros; subst;
    try discriminate; try reflexivity; try lia.
Qed.

End OrderFacts.

(* ===================================================================== *)
(** ** What the arithmetic of Numbers computes

    The operations of [SpecFloat] are related to the reals: a Number
    produced by [binary_round_aux] is the rounding to nearest (ties to
    even) of the real it was given, and rounding is monotone. *)
(* ===================================================================== *)

Section Rounding.

Lemma bpow_gt_0 e : (0 < bpow e)%R.
Proof. apply powerRZ_lt. lra. Qed.

Lemma bpow_plus a b : bpow (a + b) = (bpow a * bpow b)%R.
Proof. apply powerRZ_add. lra. Qed.

Lemma bpow_IZR e : 0 <= e -> bpow e = IZR (2 ^ e).
Proof.
  intros H. unfold bpow.
  rewrite <- (Z2Nat.id e H). rewrite <- pow_powerRZ, pow_IZR. reflexivity.
Qed.

Lemma bpow_ge_1 e : 0 <= e -> (1 <= bpow e)%R.
Proof.
  intros H. rewrite bpow_IZR by exact H. apply IZR_le.
  pose proof (Z.pow_pos_nonneg 2 e ltac:(lia) H). lia.
Qed.

Lemma bpow_1 : bpow 1 = 2%R.
Proof. unfold bpow. simpl. lra. Qed.

Lemma bpow_le a b : a <= b -> (bpow a <= bpow b)%R.
Proof.
  intros H. replace b with (a + (b - a)) by lia. rewrite bpow_plus.
  pose proof (bpow_gt_0 a). pose proof (bpow_ge_1 (b - a) ltac:(lia)). nra.
Qed.

Lemma bpow_lt a b : a < b -> (bpow a < bpow b)%R.
Proof.
  intros H. replace b with (a + 1 + (b - a - 1)) by lia. rewrite !bpow_plus.
  pose proof (bpow_gt_0 a). pose proof (bpow_ge_1 (b - a - 1) ltac:(lia)).
  rewrite bpow_1. nra.
Qed.

Lemma bpow_succ e : bpow (e + 1) = (2 * bpow e)%R.
Proof. rewrite bpow_plus, bpow_1. ring. Qed.

Lemma F2R_le m m' e : m <= m' -> (F2R m e <= F2R m' e)%R.
Proof.
  intros H. unfold F2R. apply IZR_le in H. pose proof (bpow_gt_0 e). nra.
Qed.

Lemma F2R_lt_inv m m' e : (F2R m e < F2R m' e)%R -> m < m'.
Proof.
  unfold F2R. intros H. apply lt_IZR. pose proof (bpow_gt_0 e). nra.
Qed.

Lemma F2R_le_inv m m' e : (F2R m e <= F2R m' e)%R -> m <= m'.
Proof.
  unfold F2R. intros H. apply le_IZR. pose proof (bpow_gt_0 e). nra.
Qed.

Lemma F2R_bpow e k : 0 <= k -> F2R (2 ^ k) e = bpow (k + e).
Proof. intros H. unfold F2R. rewrite bpow_plus, (bpow_IZR k H). reflexivity. Qed.

(** Shifting a mantissa against its exponent keeps the value. *)
Lemma F2R_shift m e k : 0 <= k -> F2R (m * 2 ^ k) (e - k) = F2R m e.
Proof.
  intros H. unfold F2R. rewrite mult_IZR, <- (bpow_IZR k H).
  replace e with ((e - k) + k) at 2 by lia. rewrite bpow_plus. ring.
Qed.

(** *** Number of binary digits *)

Lemma digits2_pos_bounds m :
  2 ^ (Z.pos (digits2_pos m) - 1) <= Z.pos m < 2 ^ Z.pos (digits2_pos m).
Proof.
  induction m as [m IH | m IH | ]; cbn [digits2_pos].
  - rewrite Pos2Z.inj_succ.
    replace (Z.succ (Z.pos (digits2_pos m)) - 1) with (Z.succ (Z.pos (digits2_pos m) - 1)) by lia.
    rewrite !Z.pow_succ_r by lia. lia.
  - rewrite Pos2Z.inj_succ.
    replace (Z.succ (Z.pos (digits2_pos m)) - 1) with (Z.succ (Z.pos (digits2_pos m) - 1)) by lia.
    rewrite !Z.pow_succ_r by lia. lia.
  - simpl. lia.
Qed.

Lemma Zdigits2_bounds m :
  0 < m -> 2 ^ (Zdigits2 m - 1) <= m < 2 ^ Zdigits2 m.
Proof.
  destruct m as [ | p | p ]; try lia. intros _. apply digits2_pos_bounds.
Qed.

Lemma Zdigits2_pos m : 0 < m -> 0 < Zdigits2 m.
Proof. destruct m; simpl; lia. Qed.

Lemma Zdigits2_unique m k : 0 < m -> 2 ^ (k - 1) <= m < 2 ^ k -> Zdigits2 m = k.
Proof.
  intros Hm [Hlo Hhi].
  pose proof (Zdigits2_bounds m Hm) as [Dlo Dhi].
  pose proof (Zdigits2_pos m Hm) as Dpos.
  assert (Hk : 0 < k).
  { destruct (Z_lt_le_dec 0 k) as [ | Hk ]; [ assumption | ].
    destruct (Z.eq_dec k 0) as [-> | ]; [ simpl in Hhi; lia | ].
    rewrite Z.pow_neg_r in Hhi by lia. lia. }
  destruct (Z_lt_le_dec (Zdigits2 m) k) as [Hlt | Hge].
  - pose proof (Z.pow_le_mono_r 2 (Zdigits2 m) (k - 1) ltac:(lia) ltac:(lia)). lia.
  - destruct (Z.eq_dec (Zdigits2 m) k) as [ | Hne ]; [ assumption | ].
    pose proof (Z.pow_le_mono_r 2 k (Zdigits2 m - 1) ltac:(lia) ltac:(lia)). lia.
Qed.

(** A non-negative mantissa is below the power of two of its digit count. *)
Lemma Zdigits2_succ_le m : 0 <= m -> m + 1 <= 2 ^ Zdigits2 m.
Proof.
  intros H. destruct (Z.eq_dec m 0) as [-> | Hne]; [ simpl; lia | ].
  pose proof (Zdigits2_bounds m ltac:(lia)). lia.
Qed.

Lemma Zdigits2_nonneg m : 0 <= Zdigits2 m.
Proof. destruct m; simpl; lia. Qed.

(** Digits of a quotient by a power of two. *)
Lemma Zdigits2_div_pow2 m k :
  0 <= m -> 0 <= k -> Zdigits2 (m / 2 ^ k) = Z.max (Zdigits2 m - k) 0.
Proof.
  intros Hm Hk.
  destruct (Z.eq_dec m 0) as [-> | Hne].
  { rewrite Z.div_0_l by (pose proof (Z.pow_pos_nonneg 2 k); lia). simpl. lia. }
  pose proof (Zdigits2_bounds m ltac:(lia)) as [Dlo Dhi].
  pose proof (Zdigits2_pos m ltac:(lia)) as Dpos.
  pose proof (Z.pow_pos_nonneg 2 k ltac:(lia) Hk) as Pk.
  destruct (Z_lt_le_dec k (Zdigits2 m)) as [Hlt | Hge].
  - rewrite Z.max_l by lia. apply Zdigits2_unique.
    + apply Z.div_str_pos. split; [ lia | ].
      pose proof (Z.pow_le_mono_r 2 k (Zdigits2 m - 1) ltac:(lia) ltac:(lia)). lia.
    + assert (E1 : 2 ^ (Zdigits2 m - 1) = 2 ^ (Zdigits2 m - k - 1) * 2 ^ k)
        by (rewrite <- Z.pow_add_r by lia; f_equal; lia).
      assert (E2 : 2 ^ Zdigits2 m = 2 ^ (Zdigits2 m - k) * 2 ^ k)
        by (rewrite <- Z.pow_add_r by lia; f_equal; lia).
      rewrite E1 in Dlo. rewrite E2 in Dhi.
      split.
      * apply Z.div_le_lower_bound; lia.
      * apply Z.div_lt_upper_bound; lia.
  - rewrite Z.max_r by lia.
    rewrite Z.div_small; [ reflexivity | ].
    pose proof (Z.pow_le_mono_r 2 (Zdigits2 m) k ltac:(lia) ltac:(lia)). lia.
Qed.

Lemma inbetween_bounds x m e l :
  inbetween x m e l -> (F2R m e <= x < F2R (m + 1) e)%R.
Proof.
  destruct l as [ | c ]; simpl.
  - intros ->. split; [ lra | ].
    unfold F2R. rewrite plus_IZR. pose proof (bpow_gt_0 e). lra.
  - intros [H _]. lra.
Qed.

Lemma fexp_eq e : fexp prec emax e = Z.max (e - 53) (-1074).
Proof. reflexivity. Qed.

Lemma loc_of_shr_record_of_loc m l :
  loc_of_shr_record (shr_record_of_loc m l) = l.
Proof. destruct l as [ | [ | | ] ]; reflexivity. Qed.

Lemma shr_1_m mrs : 0 <= shr_m mrs -> shr_m (shr_1 mrs) = shr_m mrs / 2.
Proof.
  destruct mrs as [m r s]; simpl.
  destruct m as [ | [p | p | ] | p ]; simpl; intros H; try lia; try reflexivity.
  - rewrite Pos2Z.inj_xI. apply Z.div_unique with 1; lia.
  - rewrite Pos2Z.inj_xO. apply Z.div_unique with 0; lia.
Qed.

Lemma shr_1_inbetween x mrs e :
  0 <= shr_m mrs ->
  inbetween x (shr_m mrs) e (loc_of_shr_record mrs) ->
  inbetween x (shr_m (shr_1 mrs)) (e + 1) (loc_of_shr_record (shr_1 mrs)).
Proof.
  destruct mrs as [m r s]. cbn [shr_m].
  pose proof (bpow_gt_0 e) as Hb.
  destruct m as [ | [p | p | ] | p ]; intros Hm; try lia.
  - destruct r, s; cbn [shr_1 orb shr_m loc_of_shr_record inbetween];
      unfold F2R; rewrite ?bpow_succ; cbn [Z.add];
      intros H; repeat split; lra.
  - destruct r, s; cbn [shr_1 orb shr_m loc_of_shr_record inbetween];
      unfold F2R; rewrite ?bpow_succ, (Pos2Z.inj_xI p), ?plus_IZR, ?mult_IZR;
      set (t := (IZR (Z.pos p) * bpow e)%R);
      replace (IZR (Z.pos p) * (2 * bpow e))%R with (2 * t)%R by (unfold t; ring);
      replace ((2 * IZR (Z.pos p) + 1) * bpow e)%R with (2 * t + bpow e)%R
        by (unfold t; ring);
      try replace ((2 * IZR (Z.pos p) + 1 + 1) * bpow e)%R with (2 * t + 2 * bpow e)%R
        by (unfold t; ring);
      replace ((IZR (Z.pos p) + 1) * (2 * bpow e))%R with (2 * t + 2 * bpow e)%R
        by (unfold t; ring);
      intros H; repeat split; lra.
  - destruct r, s; cbn [shr_1 orb shr_m loc_of_shr_record inbetween];
      unfold F2R; rewrite ?bpow_succ, (Pos2Z.inj_xO p), ?plus_IZR, ?mult_IZR;
      set (t := (IZR (Z.pos p) * bpow e)%R);
      try replace (IZR (Z.pos p) * (2 * bpow e))%R with (2 * t)%R by (unfold t; ring);
      replace (2 * IZR (Z.pos p) * bpow e)%R with (2 * t)%R by (unfold t; ring);
      try replace ((2 * IZR (Z.pos p) + 1) * bpow e)%R with (2 * t + bpow e)%R
        by (unfold t; ring);
      try replace ((IZR (Z.pos p) + 1) * (2 * bpow e))%R with (2 * t + 2 * bpow e)%R
        by (unfold t; ring);
      intros H; repeat split; lra.
  - destruct r, s; cbn [shr_1 orb shr_m loc_of_shr_record inbetween];
      unfold F2R; rewrite ?bpow_succ; cbn [Z.add Pos.add];
      intros H; repeat split; lra.
Qed.

Lemma iter_pos_indexed {A : Type} (P : Z -> A -> Prop) (f : A -> A) :
  (forall k a, P k a -> P (k + 1) (f a)) ->
  forall p k a, P k a -> P (k + Z.pos p) (SpecFloat.iter_pos f p a).
Proof.
  intros Hf. induction p as [p IH | p IH | ]; intros k a Ha; cbn [SpecFloat.iter_pos].
  - replace (k + Z.pos p~1) with (k + 1 + Z.pos p + Z.pos p) by lia.
    apply IH, IH, Hf, Ha.
  - replace (k + Z.pos p~0) with (k + Z.pos p + Z.pos p) by lia.
    apply IH, IH, Ha.
  - apply Hf, Ha.
Qed.

(** Shifting [n] digits out keeps the real located, at exponent [e + n]. *)
Lemma shr_inbetween x mrs e n :
  0 <= shr_m mrs -> 0 <= n ->
  inbetween x (shr_m mrs) e (loc_of_shr_record mrs) ->
  let '(mrs', e') := shr mrs e n in
  e' = e + n /\
  shr_m mrs' = shr_m mrs / 2 ^ n /\
  inbetween x (shr_m mrs') e' (loc_of_shr_record mrs').
Proof.
  intros Hm Hn Hx. destruct n as [ | p | p ]; try lia; cbn [shr].
  - rewrite Z.add_0_r, Z.div_1_r. auto.
  - split; [ reflexivity | ].
    pose (P := fun (k : Z) (r : shr_record) =>
                 0 <= k /\ shr_m r = shr_m mrs / 2 ^ k /\
                 inbetween x (shr_m r) (e + k) (loc_of_shr_record r)).
    assert (H : P (0 + Z.pos p) (SpecFloat.iter_pos shr_1 p mrs)).
    { apply (iter_pos_indexed P).
      - intros k a (Hk & Ha & Hin). unfold P.
        assert (Hnn : 0 <= shr_m a).
        { rewrite Ha. apply Z.div_pos; [ exact Hm | ].
          apply Z.pow_pos_nonneg; lia. }
        split; [ lia | ]. split.
        + rewrite shr_1_m by exact Hnn. rewrite Ha.
          rewrite Z.div_div by (try apply Z.pow_pos_nonneg; lia).
          rewrite Z.pow_add_r by lia. reflexivity.
        + rewrite Z.add_assoc. apply shr_1_inbetween; assumption.
      - unfold P. rewrite Z.add_0_r, Z.div_1_r. auto with zarith. }
    destruct H as (_ & H1 & H2). rewrite Z.add_0_l in H1, H2. auto.
Qed.

Lemma shr_fexp_state x m e l :
  0 <= m -> e <= fexp prec emax (Zdigits2 m + e) ->
  inbetween x m e l ->
  let '(mrs', e') := shr_fexp prec emax m e l in
  canonical_state (shr_m mrs') e' /\
  inbetween x (shr_m mrs') e' (loc_of_shr_record mrs') /\
  (e = fexp prec emax (Zdigits2 m + e) ->
   shr_m mrs' = m /\ e' = e /\ loc_of_shr_record mrs' = l).
Proof.
  intros Hm He Hx. unfold shr_fexp.
  set (n := fexp prec emax (Zdigits2 m + e) - e).
  assert (Hn : 0 <= n) by (unfold n; lia).
  pose proof (shr_inbetween x (shr_record_of_loc m l) e n) as H.
  rewrite shr_record_of_loc_m, loc_of_shr_record_of_loc in H.
  specialize (H Hm Hn Hx).
  destruct (shr (shr_record_of_loc m l) e n) as [mrs' e'] eqn:E.
  destruct H as (-> & Hm' & Hin).
  split; [ | split ].
  - split.
    + rewrite Hm'. apply Z.div_pos; [ exact Hm | apply Z.pow_pos_nonneg; lia ].
    + rewrite Hm', Zdigits2_div_pow2 by assumption.
      pose proof (Zdigits2_nonneg m). unfold n in *. rewrite !fexp_eq in *. lia.
  - exact Hin.
  - intros Heq. assert (Hn0 : n = 0) by (unfold n; lia).
    rewrite Hn0 in E |- *. cbn [shr] in E. injection E as Hmrs _. subst mrs'.
    rewrite shr_record_of_loc_m, loc_of_shr_record_of_loc.
    repeat split. lia.
Qed.

Lemma bpow_lt_inv a b : (bpow a < bpow b)%R -> a < b.
Proof.
  intros H. destruct (Z_lt_le_dec a b) as [ | Hle ]; [ assumption | ].
  pose proof (bpow_le b a Hle). lra.
Qed.

Lemma F2R_ge_bpow m e : 0 < m -> (bpow (Zdigits2 m - 1 + e) <= F2R m e)%R.
Proof.
  intros Hm. pose proof (Zdigits2_bounds m Hm) as [Hlo _].
  pose proof (Zdigits2_pos m Hm).
  rewrite <- F2R_bpow by lia. apply F2R_le. exact Hlo.
Qed.

Lemma F2R_succ_le_bpow m e : 0 <= m -> (F2R (m + 1) e <= bpow (Zdigits2 m + e))%R.
Proof.
  intros Hm. pose proof (Zdigits2_succ_le m Hm).
  rewrite <- F2R_bpow by apply Zdigits2_nonneg. apply F2R_le. assumption.
Qed.

Lemma Zdigits2_mono a b : 0 <= a <= b -> Zdigits2 a <= Zdigits2 b.
Proof.
  intros [Ha Hab].
  destruct (Z.eq_dec a 0) as [-> | Hne]; [ apply Zdigits2_nonneg | ].
  pose proof (Zdigits2_bounds a ltac:(lia)) as [Alo _].
  pose proof (Zdigits2_bounds b ltac:(lia)) as [_ Bhi].
  destruct (Z_lt_le_dec (Zdigits2 b) (Zdigits2 a)) as [Hlt | ]; [ | assumption ].
  pose proof (Zdigits2_nonneg b).
  pose proof (Z.pow_le_mono_r 2 (Zdigits2 b) (Zdigits2 a - 1) ltac:(lia) ltac:(lia)).
  lia.
Qed.

(** *** Rounding to nearest, ties to even *)

Lemma round_nearest_even_cases m l :
  round_nearest_even m l = m \/ round_nearest_even m l = m + 1.
Proof.
  destruct l as [ | [ | | ] ]; simpl; auto. destruct (Z.even m); auto.
Qed.

(** At one exponent, rounding is monotone. *)
Lemma round_nearest_even_mono x x' m m' e l l' :
  inbetween x m e l -> inbetween x' m' e l' -> (x <= x')%R ->
  round_nearest_even m l <= round_nearest_even m' l'.
Proof.
  intros H H' Hxx.
  pose proof (inbetween_bounds _ _ _ _ H) as [B1 B2].
  pose proof (inbetween_bounds _ _ _ _ H') as [B1' B2'].
  assert (Hm : m < m' + 1) by (apply (F2R_lt_inv _ _ e); lra).
  destruct (Z.eq_dec m m') as [<- | Hne].
  - destruct l as [ | [ | | ] ], l' as [ | [ | | ] ]; simpl in *;
      try destruct (Z.even m); try lia; exfalso; lra.
  - destruct (round_nearest_even_cases m l), (round_nearest_even_cases m' l'); lia.
Qed.

(** Across canonical states too. *)
Lemma canonical_state_mono x x' m m' e e' l l' :
  canonical_state m e -> canonical_state m' e' ->
  inbetween x m e l -> inbetween x' m' e' l' -> (x <= x')%R ->
  (F2R (round_nearest_even m l) e <= F2R (round_nearest_even m' l') e')%R.
Proof.
  intros [Hm He] [Hm' He'] H H' Hxx.
  pose proof (inbetween_bounds _ _ _ _ H) as [B1 B2].
  pose proof (inbetween_bounds _ _ _ _ H') as [B1' B2'].
  rewrite fexp_eq in He, He'.
  pose proof (Zdigits2_nonneg m). pose proof (Zdigits2_nonneg m').
  destruct (Z.lt_trichotomy e e') as [Hlt | [<- | Hgt]].
  - (* the first real is below the least value at exponent e' *)
    assert (Hpos : 0 < m').
    { destruct (Z.eq_dec m' 0) as [-> | ]; [ simpl in He'; lia | lia ]. }
    pose proof (F2R_succ_le_bpow m e Hm).
    pose proof (F2R_ge_bpow m' e' Hpos).
    pose proof (bpow_le (Zdigits2 m + e) (Zdigits2 m' - 1 + e') ltac:(lia)).
    assert ((F2R (round_nearest_even m l) e <= F2R (m + 1) e)%R)
      by (apply F2R_le; destruct (round_nearest_even_cases m l); lia).
    assert ((F2R m' e' <= F2R (round_nearest_even m' l') e')%R)
      by (apply F2R_le; destruct (round_nearest_even_cases m' l'); lia).
    lra.
  - apply F2R_le. eapply round_nearest_even_mono; eassumption.
  - exfalso.
    assert (Hpos : 0 < m).
    { destruct (Z.eq_dec m 0) as [-> | ]; [ simpl in He; lia | lia ]. }
    pose proof (F2R_succ_le_bpow m' e' Hm').
    pose proof (F2R_ge_bpow m e Hpos).
    pose proof (bpow_le (Zdigits2 m' + e') (Zdigits2 m - 1 + e) ltac:(lia)).
    lra.
Qed.

Lemma rounds_to_mono x x' r r' :
  rounds_to x r -> rounds_to x' r' -> (x <= x')%R -> (val r <= val r')%R.
Proof.
  intros (_ & m & e & l & Hc & Hi & ->) (_ & m' & e' & l' & Hc' & Hi' & ->) H.
  eapply canonical_state_mono; eassumption.
Qed.

Lemma good_bounds r : good r -> (0 <= val r)%R.
Proof.
  intros [-> | (m & e & -> & _)]; simpl; [ lra | ].
  unfold F2R. pose proof (bpow_gt_0 e).
  assert (0 < IZR (Z.pos m))%R by (apply IZR_lt; lia). nra.
Qed.

(** On good Numbers, [<=] is the order of the values. *)
Lemma good_le r r' : good r -> good r' -> (val r <= val r')%R -> le r r' = true.
Proof.
  intros [-> | (m & e & -> & Hb)] [-> | (m' & e' & -> & Hb')]; try reflexivity.
  - simpl. intros H. exfalso.
    unfold F2R in H. pose proof (bpow_gt_0 e).
    assert (0 < IZR (Z.pos m))%R by (apply IZR_lt; lia). nra.
  - unfold le, SFleb, val. cbn [SFcompare]. intros H.
    unfold SpecFloat.bounded, canonical_mantissa in Hb, Hb'.
    apply andb_prop in Hb, Hb'. destruct Hb as [Hb _], Hb' as [Hb' _].
    apply Z.eqb_eq in Hb, Hb'. rewrite fexp_eq in Hb, Hb'.
    change (Z.pos (digits2_pos m)) with (Zdigits2 (Z.pos m)) in Hb.
    change (Z.pos (digits2_pos m')) with (Zdigits2 (Z.pos m')) in Hb'.
    destruct (Z.compare_spec e e') as [<- | Hlt | Hgt]; try reflexivity.
    + apply F2R_le_inv in H.
      change (Pos.compare_cont Eq m m') with (Pos.compare m m').
      destruct (Pos.compare_spec m m'); try reflexivity. lia.
    + exfalso.
      pose proof (F2R_succ_le_bpow (Z.pos m') e' ltac:(lia)).
      pose proof (F2R_ge_bpow (Z.pos m) e ltac:(lia)).
      pose proof (bpow_le (Zdigits2 (Z.pos m') + e') (Zdigits2 (Z.pos m) - 1 + e)
                    ltac:(lia)).
      assert (F2R (Z.pos m') e' < F2R (Z.pos m' + 1) e')%R.
      { unfold F2R. rewrite plus_IZR. pose proof (bpow_gt_0 e'). lra. }
      lra.
Qed.

(** *** [binary_round_aux] rounds to nearest even *)

(** The second [shr_fexp]: it keeps the value of the rounded mantissa and
    leaves a canonical state at most one exponent higher. *)
Lemma renormalize m1 e1 m2 :
  canonical_state m1 e1 -> m2 = m1 \/ m2 = m1 + 1 ->
  let '(mrs, e) := shr_fexp prec emax m2 e1 loc_Exact in
  canonical_state (shr_m mrs) e /\
  F2R (shr_m mrs) e = F2R m2 e1 /\
  e <= e1 + 1.
Proof.
  intros [Hm1 He1] Hm2.
  assert (H2 : 0 <= m2) by lia.
  pose proof (Zdigits2_mono m1 m2 ltac:(lia)) as Hd.
  pose proof (Zdigits2_nonneg m1) as Hd1.
  pose proof (Zdigits2_succ_le m1 Hm1) as Hs.
  rewrite fexp_eq in He1.
  destruct (Z.eq_dec (fexp prec emax (Zdigits2 m2 + e1)) e1) as [Heq | Hne].
  - (* already canonical *)
    pose proof (shr_fexp_state (F2R m2 e1) m2 e1 loc_Exact H2 ltac:(lia) eq_refl) as H.
    destruct (shr_fexp prec emax m2 e1 loc_Exact) as [mrs e].
    destruct H as (Hc & _ & Hsame). destruct (Hsame (eq_sym Heq)) as (-> & -> & _).
    repeat split; try lia; try (rewrite fexp_eq; lia).
  - (* a carry into a new digit: the mantissa is 2^53 *)
    rewrite fexp_eq in Hne.
    assert (Hm2' : m2 = 2 ^ 53).
    { destruct Hm2 as [-> | ->]; [ lia | ].
      destruct (Z.eq_dec (m1 + 1) (2 ^ Zdigits2 m1)) as [E | E].
      - assert (Zdigits2 m1 = 53).
        { assert (Zdigits2 (m1 + 1) = Zdigits2 m1 + 1).
          { apply Zdigits2_unique; [ lia | ].
            replace (Zdigits2 m1 + 1 - 1) with (Zdigits2 m1) by lia.
            rewrite Z.pow_add_r by lia. lia. }
          lia. }
        congruence.
      - assert (Zdigits2 (m1 + 1) = Zdigits2 m1).
        { destruct (Z.eq_dec m1 0) as [-> | ]; [ simpl in E; lia | ].
          apply Zdigits2_unique; [ lia | ].
          pose proof (Zdigits2_bounds m1 ltac:(lia)). lia. }
        lia. }
    subst m2.
    assert (Hd53 : Zdigits2 m1 = 53).
    { change (Zdigits2 (2 ^ 53)) with 54 in Hne, Hd.
      destruct (Z.eq_dec m1 (2 ^ 53)) as [-> | ]; [ simpl in He1; simpl in Hne; lia | ].
      assert (m1 + 1 = 2 ^ 53) by lia.
      assert (m1 < 2 ^ Zdigits2 m1) by lia.
      destruct (Z_lt_le_dec (Zdigits2 m1) 53) as [Hlt | ]; [ | lia ].
      pose proof (Z.pow_le_mono_r 2 (Zdigits2 m1) 52 ltac:(lia) ltac:(lia)).
      change (2 ^ 52) with 4503599627370496 in *.
      change (2 ^ 53) with 9007199254740992 in *. lia. }
    unfold shr_fexp. change (Zdigits2 (2 ^ 53)) with 54.
    rewrite fexp_eq.
    replace (Z.max (54 + e1 - 53) (-1074) - e1) with 1 by lia.
    cbn [shr shr_record_of_loc SpecFloat.iter_pos shr_1 shr_m Z.pow Z.pow_pos Pos.iter Z.mul Pos.mul].
    split; [ split; [ lia | ] | split; [ | lia ] ].
    + change (Zdigits2 4503599627370496) with 53. rewrite fexp_eq. lia.
    + unfold F2R. rewrite bpow_succ.
      change (IZR 4503599627370496) with (IZR (2 ^ 52)).
      change (IZR 9007199254740992) with (IZR (2 ^ 53)).
      change (2 ^ 53) with (2 * 2 ^ 52). rewrite mult_IZR. ring.
Qed.

Lemma canonical_mantissa_state m e :
  canonical_state (Z.pos m) e -> canonical_mantissa prec emax m e = true.
Proof.
  intros [_ H]. unfold canonical_mantissa. apply Z.eqb_eq. symmetry. exact H.
Qed.

(** A located real below [2^1000] is rounded to nearest even, and exactly
    represented when the state is exact and canonical already. *)
Lemma binary_round_aux_rounds x m e l :
  0 <= m -> e <= fexp prec emax (Zdigits2 m + e) ->
  inbetween x m e l -> (x < bpow 1000)%R ->
  rounds_to x (binary_round_aux prec emax false m e l) /\
  (e = fexp prec emax (Zdigits2 m + e) -> l = loc_Exact ->
   val (binary_round_aux prec emax false m e l) = x).
Proof.
  intros Hm He Hx Hlt. unfold binary_round_aux.
  pose proof (shr_fexp_state x m e l Hm He Hx) as H1.
  destruct (shr_fexp prec emax m e l) as [mrs1 e1].
  destruct H1 as (Hc1 & Hin1 & Hsame).
  set (m1 := shr_m mrs1) in *. set (l1 := loc_of_shr_record mrs1) in *.
  pose proof (renormalize m1 e1 (round_nearest_even m1 l1) Hc1
                (round_nearest_even_cases m1 l1)) as H2.
  destruct (shr_fexp prec emax (round_nearest_even m1 l1) e1 loc_Exact) as [mrs2 e2].
  destruct H2 as (Hc2 & Hv2 & He2).
  (* no overflow *)
  assert (Hsmall : e1 <= 947).
  { destruct Hc1 as [Hm1 He1]. rewrite fexp_eq in He1.
    destruct (Z.eq_dec m1 0) as [E | E]; [ rewrite E in He1; simpl in He1; lia | ].
    pose proof (F2R_ge_bpow m1 e1 ltac:(lia)).
    pose proof (inbetween_bounds _ _ _ _ Hin1) as [B1 _].
    assert (Zdigits2 m1 - 1 + e1 < 1000) by (apply bpow_lt_inv; lra).
    lia. }
  assert (Hval : forall r, val r = F2R (shr_m mrs2) e2 -> good r ->
                 rounds_to x r /\
                 (e = fexp prec emax (Zdigits2 m + e) -> l = loc_Exact -> val r = x)).
  { intros r Hr Hg. split.
    - split; [ exact Hg | ]. exists m1, e1, l1. rewrite Hr, Hv2. auto.
    - intros Heq ->. destruct (Hsame Heq) as (E1 & E2 & E3).
      rewrite Hr, Hv2. subst l1 m1. rewrite E3. cbn [round_nearest_even].
      rewrite E1, E2. symmetry. exact Hx. }
  destruct Hc2 as [Hm2 Hfe2].
  destruct (shr_m mrs2) as [ | p | p ] eqn:Ep; try lia.
  - apply Hval; [ unfold F2R; simpl; ring | left; reflexivity ].
  - replace (e2 <=? emax - prec) with true
      by (symmetry; apply Z.leb_le; unfold emax, prec; lia).
    apply Hval; [ reflexivity | ].
    right. exists p, e2. split; [ reflexivity | ].
    unfold SpecFloat.bounded. apply andb_true_intro. split.
    + apply canonical_mantissa_state. split; [ lia | exact Hfe2 ].
    + apply Z.leb_le. unfold emax, prec. lia.
Qed.

Lemma Zdigits2_ge m k : 0 < k -> 2 ^ (k - 1) <= m -> k <= Zdigits2 m.
Proof.
  intros Hk Hm.
  assert (0 < m) by (pose proof (Z.pow_pos_nonneg 2 (k - 1)); lia).
  pose proof (Zdigits2_bounds m ltac:(lia)) as [_ Hhi].
  pose proof (Zdigits2_nonneg m).
  destruct (Z_lt_le_dec (Zdigits2 m) k) as [Hlt | ]; [ | assumption ].
  pose proof (Z.pow_le_mono_r 2 (Zdigits2 m) (k - 1) ltac:(lia) ltac:(lia)). lia.
Qed.

Lemma Zdigits2_mul_pow2 m k :
  0 < m -> 0 <= k -> Zdigits2 (m * 2 ^ k) = Zdigits2 m + k.
Proof.
  intros Hm Hk.
  pose proof (Zdigits2_bounds m Hm) as [Hlo Hhi].
  pose proof (Zdigits2_pos m Hm).
  pose proof (Z.pow_pos_nonneg 2 k ltac:(lia) Hk).
  apply Zdigits2_unique; [ lia | ].
  replace (Zdigits2 m + k - 1) with (Zdigits2 m - 1 + k) by lia.
  rewrite !Z.pow_add_r by lia. split; nia.
Qed.

Lemma iter_xO m d : Z.pos (Pos.iter xO m d) = Z.pos m * 2 ^ Z.pos d.
Proof.
  induction d as [ | d IH ] using Pos.peano_ind.
  - simpl. lia.
  - rewrite Pos.iter_succ, Pos2Z.inj_xO, IH, Pos2Z.inj_succ, Z.pow_succ_r by lia. lia.
Qed.

(** [binary_round] rounds [m * 2^e], exactly when [m] fits at exponent [e]. *)
Lemma binary_round_rounds m e :
  (F2R (Z.pos m) e < bpow 1000)%R ->
  rounds_to (F2R (Z.pos m) e) (binary_round prec emax false m e) /\
  (fexp prec emax (Zdigits2 (Z.pos m) + e) <= e ->
   val (binary_round prec emax false m e) = F2R (Z.pos m) e).
Proof.
  intros Hlt. unfold binary_round, shl_align.
  change (Z.pos (digits2_pos m)) with (Zdigits2 (Z.pos m)).
  set (e' := fexp prec emax (Zdigits2 (Z.pos m) + e)).
  destruct (e' - e) as [ | d | d ] eqn:Ed.
  - assert (He : e = e') by lia.
    destruct (binary_round_aux_rounds (F2R (Z.pos m) e) (Z.pos m) e loc_Exact)
      as [H1 H2]; try (fold e'; lia); try reflexivity; try assumption.
    split; [ exact H1 | intros _; apply H2; [ fold e'; lia | reflexivity ] ].
  - destruct (binary_round_aux_rounds (F2R (Z.pos m) e) (Z.pos m) e loc_Exact)
      as [H1 H2]; try (fold e'; lia); try reflexivity; try assumption.
    split; [ exact H1 | intros; lia ].
  - assert (Hv : F2R (Z.pos (Pos.iter xO m d)) e' = F2R (Z.pos m) e).
    { rewrite iter_xO. replace e' with (e - Z.pos d) by lia.
      apply F2R_shift. lia. }
    assert (Hc : e' = fexp prec emax (Zdigits2 (Z.pos (Pos.iter xO m d)) + e')).
    { rewrite iter_xO, Zdigits2_mul_pow2 by lia.
      replace (Zdigits2 (Z.pos m) + Z.pos d + e') with (Zdigits2 (Z.pos m) + e) by lia.
      reflexivity. }
    destruct (binary_round_aux_rounds (F2R (Z.pos m) e) (Z.pos (Pos.iter xO m d)) e'
                loc_Exact) as [H1 H2]; try lia; try assumption.
    { simpl. symmetry. exact Hv. }
    split; [ exact H1 | intros _; apply H2; [ exact Hc | reflexivity ] ].
Qed.

Lemma F2R_0 m : F2R m 0 = IZR m.
Proof. unfold F2R, bpow. simpl. ring. Qed.

Lemma bpow_1000_big z : z < 2 ^ 53 -> (IZR z < bpow 1000)%R.
Proof.
  intros H. apply Rlt_le_trans with (IZR (2 ^ 53)); [ apply IZR_lt; exact H | ].
  rewrite <- bpow_IZR by lia. apply bpow_le. lia.
Qed.

(** Integers below [2^53] are Numbers. *)
Lemma of_Z_exact z :
  0 < z < 2 ^ 53 ->
  rounds_to (IZR z) (of_Z z) /\ val (of_Z z) = IZR z /\
  exists m e, of_Z z = S754_finite false m e /\ SpecFloat.bounded prec emax m e = true.
Proof.
  intros [H0 H53]. destruct z as [ | p | p ]; try lia.
  unfold of_Z. cbn [binary_normalize].
  destruct (binary_round_rounds p 0) as [H1 H2].
  { rewrite F2R_0. apply bpow_1000_big. exact H53. }
  rewrite F2R_0 in H1, H2.
  assert (Hv : val (binary_round prec emax false p 0) = IZR (Z.pos p)).
  { apply H2. rewrite fexp_eq.
    pose proof (Zdigits2_bounds (Z.pos p) ltac:(lia)) as [Hlo _].
    pose proof (Zdigits2_pos (Z.pos p) ltac:(lia)).
    destruct (Z_lt_le_dec 53 (Zdigits2 (Z.pos p))) as [Hbig | ]; [ | lia ].
    pose proof (Z.pow_le_mono_r 2 53 (Zdigits2 (Z.pos p) - 1) ltac:(lia) ltac:(lia)).
    lia. }
  split; [ exact H1 | ]. split; [ exact Hv | ].
  destruct H1 as [[Hz | (m & e & Hm & Hb)] _].
  - rewrite Hz in Hv. simpl in Hv. apply eq_IZR in Hv. lia.
  - eauto.
Qed.

(** *** Division *)

Lemma frac_lt a n c : (0 < n)%R -> (a < c * n)%R -> (a / n < c)%R.
Proof.
  intros Hn H. apply Rmult_lt_reg_r with n; [ exact Hn | ].
  unfold Rdiv. rewrite Rmult_assoc, Rinv_l by lra. lra.
Qed.

Lemma frac_gt a n c : (0 < n)%R -> (c * n < a)%R -> (c < a / n)%R.
Proof.
  intros Hn H. apply Rmult_lt_reg_r with n; [ exact Hn | ].
  unfold Rdiv. rewrite Rmult_assoc, Rinv_l by lra. lra.
Qed.

(** [new_location nb k] locates [q + k / nb] between [q] and [q + 1]. *)
Lemma new_location_inbetween nb k q e :
  0 < nb -> 0 <= k < nb ->
  inbetween (F2R q e + IZR k / IZR nb * bpow e) q e (new_location nb k).
Proof.
  intros Hnb [Hk0 Hk].
  pose proof (bpow_gt_0 e) as Hb.
  assert (Hn : (0 < IZR nb)%R) by (apply IZR_lt; lia).
  assert (Hfrac : (IZR k / IZR nb < 1)%R).
  { apply frac_lt; [ exact Hn | ]. apply IZR_lt in Hk. lra. }
  assert (Hbr : 0 < k ->
                (F2R q e < F2R q e + IZR k / IZR nb * bpow e < F2R (q + 1) e)%R).
  { intros Hpos. assert (0 < IZR k / IZR nb)%R.
    { apply frac_gt; [ exact Hn | ]. apply IZR_lt in Hpos. lra. }
    unfold F2R. rewrite plus_IZR. nra. }
  assert (Hlow : 2 * k < nb ->
                 (F2R q e + IZR k / IZR nb * bpow e < F2R q e + bpow e / 2)%R).
  { intros H. assert (IZR k / IZR nb < 1 / 2)%R.
    { apply frac_lt; [ exact Hn | ]. apply IZR_lt in H.
      rewrite mult_IZR in H. lra. }
    nra. }
  assert (Hhigh : nb < 2 * k ->
                  (F2R q e + bpow e / 2 < F2R q e + IZR k / IZR nb * bpow e)%R).
  { intros H. assert (1 / 2 < IZR k / IZR nb)%R.
    { apply frac_gt; [ exact Hn | ]. apply IZR_lt in H.
      rewrite mult_IZR in H. lra. }
    nra. }
  assert (Hmid : 2 * k = nb ->
                 (F2R q e + IZR k / IZR nb * bpow e = F2R q e + bpow e / 2)%R).
  { intros H. rewrite <- H, mult_IZR.
    assert (IZR k <> 0)%R by (apply not_0_IZR; lia). field. exact H0. }
  unfold new_location, new_location_even, new_location_odd.
  destruct (Z.even nb) eqn:Ev.
  - destruct (Z.eqb_spec k 0) as [-> | Hne].
    + simpl. unfold Rdiv. rewrite Rmult_0_l, Rmult_0_l. ring.
    + cbn [inbetween]. split; [ apply Hbr; lia | ].
      destruct (Z.compare_spec (2 * k) nb);
        [ apply Hmid | apply Hlow | apply Hhigh ]; lia.
  - destruct (Z.eqb_spec k 0) as [-> | Hne].
    + simpl. unfold Rdiv. rewrite Rmult_0_l, Rmult_0_l. ring.
    + cbn [inbetween]. split; [ apply Hbr; lia | ].
      assert (Hodd : 2 * k <> nb).
      { intros E. rewrite <- E, Z.even_mul in Ev. discriminate. }
      destruct (Z.compare_spec (2 * k + 1) nb); [ apply Hlow | apply Hlow | apply Hhigh ]; lia.
Qed.

Lemma SFdiv_core_binary_inbetween m1 e1 m2 e2 :
  let '(q, e, l) := SFdiv_core_binary prec emax (Z.pos m1) e1 (Z.pos m2) e2 in
  0 <= q /\ e <= fexp prec emax (Zdigits2 q + e) /\
  inbetween (F2R (Z.pos m1) e1 / F2R (Z.pos m2) e2) q e l.
Proof.
  unfold SFdiv_core_binary.
  set (d1 := Zdigits2 (Z.pos m1)). set (d2 := Zdigits2 (Z.pos m2)).
  set (e := Z.min (fexp prec emax (d1 + e1 - (d2 + e2))) (e1 - e2)).
  set (s := e1 - e2 - e).
  assert (Hs : 0 <= s) by (unfold s, e; lia).
  set (m' := match s with Z.pos _ => Z.shiftl (Z.pos m1) s | 0 => Z.pos m1 | Z.neg _ => 0 end).
  assert (Hm' : m' = Z.pos m1 * 2 ^ s).
  { unfold m'. clearbody s. destruct s as [ | p | p ]; try lia.
    apply Z.shiftl_mul_pow2. lia. }
  pose proof (Z_div_mod m' (Z.pos m2) ltac:(lia)) as Hdm.
  destruct (Z.div_eucl m' (Z.pos m2)) as [q r]. destruct Hdm as [Hq Hr].
  pose proof (Z.pow_pos_nonneg 2 s ltac:(lia) Hs) as Hps.
  assert (Hq0 : 0 <= q) by nia.
  split; [ exact Hq0 | ]. split.
  - (* the quotient has enough digits *)
    pose proof (Zdigits2_bounds (Z.pos m1) ltac:(lia)) as [L1 _]. fold d1 in L1.
    pose proof (Zdigits2_bounds (Z.pos m2) ltac:(lia)) as [_ U2]. fold d2 in U2.
    pose proof (Zdigits2_pos (Z.pos m1) ltac:(lia)). fold d1 in H.
    pose proof (Zdigits2_pos (Z.pos m2) ltac:(lia)). fold d2 in H0.
    pose proof (Zdigits2_nonneg q).
    rewrite fexp_eq. unfold e at 1. rewrite fexp_eq.
    destruct (Z_lt_le_dec (d1 - 1 + s - d2) 0) as [Hneg | Hnn].
    + unfold s, e in Hneg. rewrite fexp_eq in Hneg. fold e. unfold e. rewrite fexp_eq. lia.
    + assert (Hqbig : 2 ^ (d1 - 1 + s - d2) <= q).
      { assert (E : 2 ^ (d1 - 1 + s - d2) * 2 ^ d2 = 2 ^ (d1 - 1) * 2 ^ s).
        { rewrite <- !Z.pow_add_r by lia. f_equal. lia. }
        pose proof (Z.pow_pos_nonneg 2 (d1 - 1 + s - d2) ltac:(lia) Hnn).
        pose proof (Z.pow_pos_nonneg 2 d2 ltac:(lia) ltac:(lia)).
        nia. }
      pose proof (Zdigits2_ge q (d1 + s - d2) ltac:(lia)) as Hdq.
      replace (d1 + s - d2 - 1) with (d1 - 1 + s - d2) in Hdq by lia.
      specialize (Hdq Hqbig). unfold s in Hdq. fold e. lia.
  - replace (F2R (Z.pos m1) e1 / F2R (Z.pos m2) e2)%R
      with (F2R q e + IZR r / IZR (Z.pos m2) * bpow e)%R.
    + apply new_location_inbetween; lia.
    + unfold F2R.
      assert (E1 : bpow e1 = (bpow s * bpow e * bpow e2)%R).
      { rewrite <- !bpow_plus. f_equal. unfold s. lia. }
      assert (E2 : (IZR (Z.pos m1) * bpow s = IZR (Z.pos m2) * IZR q + IZR r)%R).
      { rewrite (bpow_IZR s Hs), <- mult_IZR, <- Hm', Hq, plus_IZR, mult_IZR.
        reflexivity. }
      rewrite E1.
      pose proof (bpow_gt_0 e2). pose proof (bpow_gt_0 e).
      assert (IZR (Z.pos m2) <> 0)%R by (apply not_0_IZR; lia).
      replace (IZR (Z.pos m1) * (bpow s * bpow e * bpow e2))%R
        with ((IZR (Z.pos m2) * IZR q + IZR r) * bpow e * bpow e2)%R
        by (rewrite <- E2; ring).
      field. split; [ lra | assumption ].
Qed.

Lemma div_rounds mx ex my ey :
  (F2R (Z.pos mx) ex / F2R (Z.pos my) ey < bpow 1000)%R ->
  rounds_to (F2R (Z.pos mx) ex / F2R (Z.pos my) ey)
            (div (S754_finite false mx ex) (S754_finite false my ey)).
Proof.
  intros Hlt. unfold div. cbn [SFdiv xorb].
  pose proof (SFdiv_core_binary_inbetween mx ex my ey) as H.
  destruct (SFdiv_core_binary prec emax (Z.pos mx) ex (Z.pos my) ey) as [[q e] l].
  destruct H as (Hq & He & Hin).
  apply binary_round_aux_rounds; assumption.
Qed.

(** *** Multiplication *)

Lemma mul_rounds mx ex my ey :
  SpecFloat.bounded prec emax mx ex = true ->
  SpecFloat.bounded prec emax my ey = true ->
  (F2R (Z.pos mx) ex * F2R (Z.pos my) ey < bpow 1000)%R ->
  rounds_to (F2R (Z.pos mx) ex * F2R (Z.pos my) ey)
            (mul (S754_finite false mx ex) (S754_finite false my ey)).
Proof.
  intros Hx Hy Hlt. unfold mul. cbn [SFmul xorb].
  unfold SpecFloat.bounded, canonical_mantissa in Hx, Hy.
  apply andb_prop in Hx, Hy. destruct Hx as [Hx _], Hy as [Hy _].
  apply Z.eqb_eq in Hx, Hy. rewrite fexp_eq in Hx, Hy.
  change (Z.pos (digits2_pos mx)) with (Zdigits2 (Z.pos mx)) in Hx.
  change (Z.pos (digits2_pos my)) with (Zdigits2 (Z.pos my)) in Hy.
  apply binary_round_aux_rounds; try assumption; try lia.
  - pose proof (Zdigits2_bounds (Z.pos mx) ltac:(lia)) as [Lx _].
    pose proof (Zdigits2_bounds (Z.pos my) ltac:(lia)) as [Ly _].
    pose proof (Zdigits2_pos (Z.pos mx) ltac:(lia)).
    pose proof (Zdigits2_pos (Z.pos my) ltac:(lia)).
    assert (Hd : Zdigits2 (Z.pos mx) + Zdigits2 (Z.pos my) - 1
                 <= Zdigits2 (Z.pos (mx * my))).
    { apply Zdigits2_ge; [ lia | ].
      replace (Zdigits2 (Z.pos mx) + Zdigits2 (Z.pos my) - 1 - 1)
        with ((Zdigits2 (Z.pos mx) - 1) + (Zdigits2 (Z.pos my) - 1)) by lia.
      rewrite Z.pow_add_r by lia. rewrite Pos2Z.inj_mul.
      pose proof (Z.pow_pos_nonneg 2 (Zdigits2 (Z.pos mx) - 1) ltac:(lia) ltac:(lia)).
      pose proof (Z.pow_pos_nonneg 2 (Zdigits2 (Z.pos my) - 1) ltac:(lia) ltac:(lia)).
      nia. }
    rewrite fexp_eq. lia.
  - simpl. unfold F2R. rewrite Pos2Z.inj_mul, mult_IZR, bpow_plus. ring.
Qed.

(** *** Decimal digits read back *)

Lemma append_assoc (s1 s2 s3 : string) :
  ((s1 ++ s2) ++ s3 = s1 ++ (s2 ++ s3))%string.
Proof. induction s1 as [ | c s1 IH ]; simpl; [ reflexivity | rewrite IH; reflexivity ]. Qed.

Lemma append_nil_r (s : string) : (s ++ EmptyString)%string = s.
Proof. induction s as [ | c s IH ]; simpl; [ reflexivity | rewrite IH; reflexivity ]. Qed.

Lemma length_append (s1 s2 : string) :
  String.length (s1 ++ s2) = (String.length s1 + String.length s2)%nat.
Proof. induction s1 as [ | c s1 IH ]; simpl; [ reflexivity | rewrite IH; reflexivity ]. Qed.

Lemma digit_of_digit_char d : digit_of (digit_char d) = Some (d mod 10)%N.
Proof.
  unfold digit_of, digit_char. cbv zeta.
  pose proof (N.mod_upper_bound d 10 ltac:(discriminate)) as H.
  generalize dependent (d mod 10)%N. intros k H.
  rewrite N_ascii_embedding by lia.
  replace ((48 <=? 48 + k)%N && (48 + k <=? 57)%N) with true.
  - f_equal. rewrite N.add_comm. apply N.add_sub.
  - symmetry. apply andb_true_intro. split; apply N.leb_le; lia.
Qed.

Lemma digit_char_cases d :
  In (digit_char d)
     ["0"; "1"; "2"; "3"; "4"; "5"; "6"; "7"; "8"; "9"]%char.
Proof.
  unfold digit_char.
  pose proof (N.mod_upper_bound d 10 ltac:(discriminate)) as H.
  destruct (d mod 10)%N as [ | p ]; [ simpl; auto | ].
  do 9 (destruct p as [p | p | ]; try lia; simpl; auto 12).
Qed.

Lemma digits_fuel_app fuel n acc :
  digits_fuel fuel n acc = (digits_fuel fuel n EmptyString ++ acc)%string.
Proof.
  revert n acc. induction fuel as [ | fuel IH ]; intros n acc; cbn [digits_fuel].
  - reflexivity.
  - destruct (n / 10 =? 0)%N; [ reflexivity | ].
    rewrite IH, (IH _ (String _ EmptyString)).
    rewrite append_assoc. reflexivity.
Qed.

Lemma digits_fuel_head fuel n acc :
  exists d r, digits_fuel fuel n acc = String (digit_char d) r.
Proof.
  revert n acc. induction fuel as [ | fuel IH ]; intros n acc; cbn [digits_fuel].
  - eauto.
  - destruct (n / 10 =? 0)%N; eauto.
Qed.

(** Reading the digits of [n] appends them to what was read before. *)
Lemma read_digits_fuel fuel n rest a c :
  (n < 10 ^ N.of_nat (S fuel))%N ->
  read_digits (digits_fuel fuel n EmptyString ++ rest) a c
  = read_digits rest
      (a * 10 ^ N.of_nat (String.length (digits_fuel fuel n EmptyString)) + n)%N
      (c + String.length (digits_fuel fuel n EmptyString)).
Proof.
  revert n rest a c.
  assert (Hone : forall n rest a c, (n < 10)%N ->
            read_digits (String (digit_char n) EmptyString ++ rest) a c
            = read_digits rest (a * 10 ^ N.of_nat 1 + n)%N (c + 1)).
  { intros n rest a c Hn. cbn [append read_digits].
    rewrite digit_of_digit_char, N.mod_small by exact Hn.
    f_equal; [ change (10 ^ N.of_nat 1)%N with 10%N; lia | lia ]. }
  induction fuel as [ | fuel IH ]; intros n rest a c Hn; cbn [digits_fuel].
  - apply Hone. exact Hn.
  - destruct (N.eqb_spec (n / 10) 0) as [E | E].
    + apply Hone. pose proof (N.div_mod n 10 ltac:(discriminate)).
      pose proof (N.mod_upper_bound n 10 ltac:(discriminate)). lia.
    + rewrite digits_fuel_app, append_assoc.
      assert (Hq : (n / 10 < 10 ^ N.of_nat (S fuel))%N).
      { apply N.Div0.div_lt_upper_bound.
        rewrite <- N.pow_succ_r'. rewrite <- Nnat.Nat2N.inj_succ. exact Hn. }
      rewrite (IH _ _ _ _ Hq).
      cbn [append read_digits]. rewrite digit_of_digit_char.
      rewrite length_append. cbn [String.length].
      set (L := String.length (digits_fuel fuel (n / 10) EmptyString)).
      f_equal; [ | lia ].
      replace (N.of_nat (L + 1)) with (N.succ (N.of_nat L)) by lia.
      rewrite N.pow_succ_r'.
      pose proof (N.div_mod n 10 ltac:(discriminate)). lia.
Qed.

Lemma digits_enough n : (n < 10 ^ N.of_nat (S (N.to_nat (N.size n))))%N.
Proof.
  rewrite Nnat.Nat2N.inj_succ, Nnat.N2Nat.id.
  apply N.lt_le_trans with (2 ^ N.size n)%N.
  - destruct n as [ | p ]; [ reflexivity | ].
    apply N.size_gt.
  - apply N.le_trans with (10 ^ N.size n)%N.
    + apply N.pow_le_mono_l. lia.
    + apply N.pow_le_mono_r; lia.
Qed.

Lemma read_digits_digits n rest a c :
  read_digits (digits n ++ rest) a c
  = read_digits rest (a * 10 ^ N.of_nat (String.length (digits n)) + n)%N
                (c + String.length (digits n)).
Proof. unfold digits. apply read_digits_fuel, digits_enough. Qed.

Lemma digits_small n : (n < 10)%N -> digits n = String (digit_char n) EmptyString.
Proof.
  intros H. unfold digits.
  destruct (N.to_nat (N.size n)); cbn [digits_fuel]; [ reflexivity | ].
  rewrite N.div_small by exact H. reflexivity.
Qed.

(** [Number] of the text that [toFixed(1)] writes for [n] tenths. *)
Lemma Number_fixed1 n :
  Number_ (digits (n / 10)%N ++ "." ++ digits (n mod 10)%N) = of_decimal false n (-1).
Proof.
  pose proof (N.mod_upper_bound n 10 ltac:(discriminate)) as Hmod.
  destruct (digits_fuel_head (N.to_nat (N.size (n / 10))) (n / 10)%N EmptyString)
    as (d & r & Hd).
  fold (digits (n / 10)) in Hd.
  assert (Hread :
            read_digits (digits (n / 10) ++ "." ++ digits (n mod 10)) 0 0
            = ((n / 10)%N, (0 + String.length (digits (n / 10)))%nat,
               ("." ++ digits (n mod 10))%string)).
  { rewrite read_digits_digits. cbn [append read_digits].
    change (digit_of ".") with (@None N). rewrite N.mul_0_l, N.add_0_l.
    reflexivity. }
  assert (Hfrac : read_digits (digits (n mod 10)) (n / 10)%N 0
                  = (n, 1%nat, EmptyString)).
  { rewrite <- (append_nil_r (digits (n mod 10))) at 1.
    rewrite read_digits_digits, (digits_small _ Hmod).
    cbn [String.length read_digits Nat.add].
    f_equal. f_equal. change (10 ^ N.of_nat 1)%N with 10%N.
    rewrite (N.div_mod n 10 ltac:(discriminate)) at 3. apply N.add_cancel_r.
    apply N.mul_comm. }
  unfold Number_.
  rewrite Hd in *. cbn [append] in *.
  assert (Hsign : read_sign (String (digit_char d) (r ++ String "." (digits (n mod 10))))
                  = (false, String (digit_char d) (r ++ String "." (digits (n mod 10))))).
  { pose proof (digit_char_cases d) as Hc. cbn [In] in Hc.
    repeat (destruct Hc as [<- | Hc]; [ reflexivity | ]). destruct Hc. }
  rewrite Hsign.
  assert (Hinf : String.eqb (String (digit_char d) (r ++ String "." (digits (n mod 10))))
                            "Infinity" = false).
  { pose proof (digit_char_cases d) as Hc. cbn [In] in Hc.
    repeat (destruct Hc as [<- | Hc]; [ reflexivity | ]). destruct Hc. }
  rewrite Hinf, Hread, Hfrac.
  cbn [String.length Nat.add read_exponent]. reflexivity.
Qed.

Lemma bpow_opp e : (bpow e * bpow (- e) = 1)%R.
Proof. rewrite <- bpow_plus. replace (e + - e) with 0 by lia. reflexivity. Qed.

(** [tenths m e] is [10 * m * 2^e + 1/2] rounded down. *)
Lemma tenths_spec m e :
  (IZR (Z.of_N (tenths m e)) <= 10 * F2R (Z.pos m) e + / 2
   < IZR (Z.of_N (tenths m e)) + 1)%R.
Proof.
  unfold tenths. destruct (Z.leb_spec 0 e) as [He | He].
  - pose proof (Z.pow_pos_nonneg 2 e ltac:(lia) He).
    rewrite Z2N.id by nia.
    unfold F2R. rewrite (bpow_IZR e He), !mult_IZR. lra.
  - set (k := - e). assert (Hk : 0 < k) by (unfold k; lia).
    replace (1 - e) with (k + 1) by (unfold k; lia).
    pose proof (Z.pow_pos_nonneg 2 k ltac:(lia) ltac:(lia)) as Hp.
    rewrite Z.pow_add_r, Z.pow_1_r by lia.
    set (A := 20 * Z.pos m + 2 ^ k). set (B := 2 ^ k * 2).
    assert (HB : 0 < B) by (unfold B; lia).
    pose proof (Z.mul_div_le A B HB) as Hlo.
    pose proof (Z.mul_succ_div_gt A B HB) as Hhi.
    assert (Hq : 0 <= A / B) by (apply Z.div_pos; unfold A; lia).
    rewrite Z2N.id by exact Hq.
    set (q := A / B) in *.
    assert (Hy : ((10 * F2R (Z.pos m) e + / 2) * IZR B = IZR A)%R).
    { unfold A, B, F2R. rewrite plus_IZR, !mult_IZR, <- (bpow_IZR k) by lia.
      pose proof (bpow_opp e) as Ho. fold k in Ho.
      replace ((10 * (IZR (Z.pos m) * bpow e) + / 2) * (bpow k * 2))%R
        with (20 * IZR (Z.pos m) * (bpow e * bpow k) + bpow k)%R by field.
      rewrite Ho. ring. }
    assert (HBr : (0 < IZR B)%R) by (apply IZR_lt; exact HB).
    apply IZR_le in Hlo. apply IZR_lt in Hhi.
    rewrite mult_IZR in Hlo. rewrite mult_IZR, succ_IZR in Hhi.
    rewrite <- Hy in Hlo, Hhi. nra.
Qed.

Lemma tenths_of_spec b :
  good b ->
  (IZR (Z.of_N (tenths_of b)) <= 10 * val b + / 2 < IZR (Z.of_N (tenths_of b)) + 1)%R.
Proof.
  intros [-> | (m & e & -> & _)]; [ simpl; lra | apply tenths_spec ].
Qed.

Lemma tenths_of_mono b b' :
  good b -> good b' -> (val b <= val b')%R -> (tenths_of b <= tenths_of b')%N.
Proof.
  intros Hb Hb' H.
  pose proof (tenths_of_spec b Hb). pose proof (tenths_of_spec b' Hb').
  assert (Z.of_N (tenths_of b) < Z.of_N (tenths_of b') + 1).
  { apply lt_IZR. rewrite plus_IZR. lra. }
  lia.
Qed.

Lemma at_least_1e21_small m e :
  (F2R (Z.pos m) e < 1000)%R -> at_least_1e21 m e = false.
Proof.
  intros H. unfold at_least_1e21.
  destruct (Z.leb_spec 0 e) as [He | He]; apply Z.leb_gt.
  - unfold F2R in H. rewrite (bpow_IZR e He), <- mult_IZR in H.
    apply lt_IZR in H. change (10 ^ 21) with 1000000000000000000000. lia.
  - pose proof (Z.pow_pos_nonneg 2 (- e) ltac:(lia) ltac:(lia)) as Hp.
    assert (Hm : Z.pos m < 1000 * 2 ^ (- e)).
    { apply lt_IZR. rewrite mult_IZR, <- bpow_IZR by lia.
      pose proof (bpow_opp e). pose proof (bpow_gt_0 (- e)). pose proof (bpow_gt_0 e).
      unfold F2R in H.
      assert (IZR (Z.pos m) = IZR (Z.pos m) * bpow e * bpow (- e))%R
        by (rewrite Rmult_assoc, H0; ring).
      rewrite H3. nra. }
    change (10 ^ 21) with 1000000000000000000000. nia.
Qed.

Lemma toFixed1_small b :
  good b -> (val b < 1000)%R ->
  toFixed1 b
  = (digits (tenths_of b / 10)%N ++ "." ++ digits (tenths_of b mod 10)%N)%string.
Proof.
  intros [-> | (m & e & -> & _)] H; [ reflexivity | ].
  cbn [toFixed1 tenths_of val] in *.
  rewrite (at_least_1e21_small m e H). reflexivity.
Qed.

Lemma rounds_to_zero : rounds_to 0 (S754_zero false).
Proof.
  split; [ left; reflexivity | ].
  exists 0, (-1074), loc_Exact. repeat split; try reflexivity; try lia.
  - simpl. unfold F2R. simpl. ring.
  - simpl. unfold F2R. simpl. ring.
Qed.

(** A decimal with one fractional digit is read as the nearest Number. *)
Lemma of_decimal_rounds n :
  (IZR (Z.of_N n) / 10 < bpow 1000)%R ->
  rounds_to (IZR (Z.of_N n) / 10) (of_decimal false n (-1)).
Proof.
  intros H. destruct n as [ | p ].
  - simpl. unfold Rdiv. rewrite Rmult_0_l. apply rounds_to_zero.
  - unfold of_decimal. cbn [Z.leb Z.compare Z.opp].
    change (10 ^ 1) with (Z.pos 10).
    pose proof (SFdiv_core_binary_inbetween p 0 10 0) as Hc.
    destruct (SFdiv_core_binary prec emax (Z.pos p) 0 (Z.pos 10) 0) as [[q e] l].
    destruct Hc as (Hq & He & Hin). rewrite !F2R_0 in Hin.
    apply binary_round_aux_rounds; assumption.
Qed.

Lemma bpow_1000_ge : (2000 < bpow 1000)%R.
Proof.
  apply Rlt_le_trans with (bpow 11).
  - rewrite bpow_IZR by lia. apply IZR_lt. reflexivity.
  - apply bpow_le. lia.
Qed.

(** Rounding to one decimal is monotone on the Numbers below 1000. *)
Lemma round1_mono b b' :
  good b -> good b' -> (val b <= val b')%R -> (val b' < 1000)%R ->
  le (Number_ (toFixed1 b)) (Number_ (toFixed1 b')) = true.
Proof.
  intros Hb Hb' Hle Hlt.
  rewrite !toFixed1_small, !Number_fixed1 by (assumption || lra).
  pose proof (tenths_of_mono b b' Hb Hb' Hle) as Hn.
  pose proof (tenths_of_spec b Hb) as Hs. pose proof (tenths_of_spec b' Hb') as Hs'.
  pose proof (good_bounds b Hb) as H0.
  pose proof bpow_1000_ge as Hbig.
  assert (Hr : forall c, good c -> (val c <= val b')%R ->
                 rounds_to (IZR (Z.of_N (tenths_of c)) / 10) (of_decimal false (tenths_of c) (-1))).
  { intros c Hc Hcb. apply of_decimal_rounds.
    pose proof (tenths_of_spec c Hc). lra. }
  pose proof (Hr b Hb Hle) as R1. pose proof (Hr b' Hb' ltac:(lra)) as R2.
  apply good_le; [ apply R1 | apply R2 | ].
  apply (rounds_to_mono _ _ _ _ R1 R2).
  assert (IZR (Z.of_N (tenths_of b)) <= IZR (Z.of_N (tenths_of b')))%R
    by (apply IZR_le; lia).
  lra.
Qed.


End Rounding.

(* ===================================================================== *)
(** ** Dashboard statistics *)
(* ===================================================================== *)

Import SupabaseData.

Lemma filter_none {A : Type} (f : A -> bool) (l : list A) :
  Forall (fun a => f a = false) l -> filter f l = [].
Proof.
  induction 1 as [ | a l Ha _ IH ]; simpl; [ reflexivity | ].
  rewrite Ha. exact IH.
Qed.

(** C1. When no agent record has a non-null [last_test_score] (in
    particular when there is no record, or no data at all), the query
    having succeeded, [fetchDashboardStats] returns, and both
    [averageScore] and [passRate] are the Number 0, hence not NaN. *)
Theorem fetchDashboardStats_no_scores (agents : option (list AgentScores)) :
  (forall l, agents = Some l -> Forall (fun a => last_test_score a = null) l) ->
  exists stats,
    fetchDashboardStats {| data := agents; error := None |} = Return stats /\
    averageScore stats = zero /\ passRate stats = zero /\
    is_nan (averageScore stats) = false /\ is_nan (passRate stats) = false.
Proof.
  intros H. unfold fetchDashboardStats. cbn [error data].
  assert (Hv : match agents with
               | Some l => filter (fun a => not_null (last_test_score a)) l
               | None => []
               end = []).
  { destruct agents as [l | ]; [ | reflexivity ].
    apply filter_none. eapply Forall_impl; [ | exact (H l eq_refl) ].
    intros a Ha. cbn beta in Ha. rewrite Ha. reflexivity. }
  rewrite Hv. cbn [List.length Nat.ltb Nat.leb].
  eexists. split; [ reflexivity | ].
  cbn [averageScore passRate]. repeat split.
Qed.

Lemma fetchDashboardStats_no_scores_witness :
  exists stats,
    fetchDashboardStats
      (fetched [ {| last_test_score := null; total_testes_executados := num (of_Z 5) |} ])
    = Return stats /\
    averageScore stats = zero /\ passRate stats = zero /\
    is_nan (averageScore stats) = false /\ is_nan (passRate stats) = false.
Proof.
  apply (fetchDashboardStats_no_scores
           (Some [ {| last_test_score := null;
                      total_testes_executados := num (of_Z 5) |} ])).
  intros l Hl. injection Hl as <-. repeat constructor.
Defined.

(** C6. For three agent records with scores 9.0, 7.5 and null (whatever
    their counters hold), [fetchDashboardStats] returns [totalAgents = 3],
    [averageScore = 8.3] and [passRate = 50.0]. *)
Theorem fetchDashboardStats_scenario (c1 c2 c3 : value) :
  exists stats,
    fetchDashboardStats
      (fetched [ {| last_test_score := num (Number_ "9.0"); total_testes_executados := c1 |};
                 {| last_test_score := num (Number_ "7.5"); total_testes_executados := c2 |};
                 {| last_test_score := null; total_testes_executados := c3 |} ])
    = Return stats /\
    totalAgents stats = Number_ "3" /\
    averageScore stats = Number_ "8.3" /\
    passRate stats = Number_ "50.0".
Proof.
  eexists. split; [ reflexivity | ].
  cbn [totalAgents averageScore passRate].
  repeat split; vm_compute; reflexivity.
Qed.

(* ===================================================================== *)
(** ** Monotonicity of the pass rate *)
(* ===================================================================== *)

Lemma quotient_rounds p n :
  0 <= p <= n -> 0 < n < 2 ^ 53 ->
  rounds_to (IZR p / IZR n) (div (of_Z p) (of_Z n)).
Proof.
  intros [Hp Hpn] Hn.
  destruct (of_Z_exact n Hn) as (_ & Vn & mn & en & En & _).
  assert (Hnr : (0 < IZR n)%R) by (apply IZR_lt; lia).
  destruct (Z.eq_dec p 0) as [-> | Hne].
  - rewrite En. unfold Rdiv. rewrite Rmult_0_l. apply rounds_to_zero.
  - destruct (of_Z_exact p ltac:(lia)) as (_ & Vp & mp & ep & Ep & _).
    rewrite Ep, En in *. cbn [val] in Vp, Vn. rewrite <- Vp, <- Vn.
    apply div_rounds. rewrite Vp, Vn.
    apply Rlt_trans with 2000%R; [ | apply bpow_1000_ge ].
    apply frac_lt; [ exact Hnr | ]. apply IZR_le in Hpn. lra.
Qed.

Lemma times100_rounds a :
  good a -> (val a <= 1)%R -> rounds_to (val a * 100) (mul a (of_Z 100)).
Proof.
  intros Ha H1.
  destruct (of_Z_exact 100 ltac:(split; reflexivity)) as (_ & V & m & e & E & B).
  rewrite E in *. cbn [val] in V.
  destruct Ha as [-> | (ma & ea & -> & Ba)].
  - simpl. rewrite Rmult_0_l. apply rounds_to_zero.
  - cbn [val] in *. rewrite <- V. apply mul_rounds; try assumption.
    rewrite V. pose proof bpow_1000_ge. lra.
Qed.

Lemma rounds_to_of_Z z : 0 < z < 2 ^ 53 -> rounds_to (IZR z) (of_Z z) /\ val (of_Z z) = IZR z.
Proof. intros H. destruct (of_Z_exact z H) as (H1 & H2 & _). auto. Qed.

(** One more passing record never lowers the pass rate. *)
Lemma passRate_of_mono (p n : nat) :
  (p <= n)%nat -> Z.of_nat n + 1 < 2 ^ 53 ->
  le (passRate_of p n) (passRate_of (S p) (S n)) = true.
Proof.
  intros Hpn Hn. unfold passRate_of.
  destruct n as [ | n ].
  - assert (p = O) by lia. subst p. vm_compute. reflexivity.
  - change (0 <? S n)%nat with true. change (0 <? S (S n))%nat with true. cbv iota.
    unfold of_nat.
    set (a := div (of_Z (Z.of_nat p)) (of_Z (Z.of_nat (S n)))).
    set (a' := div (of_Z (Z.of_nat (S p))) (of_Z (Z.of_nat (S (S n))))).
    assert (Ra : rounds_to (IZR (Z.of_nat p) / IZR (Z.of_nat (S n))) a)
      by (apply quotient_rounds; lia).
    assert (Ra' : rounds_to (IZR (Z.of_nat (S p)) / IZR (Z.of_nat (S (S n)))) a')
      by (apply quotient_rounds; lia).
    destruct (rounds_to_of_Z 1 ltac:(split; reflexivity)) as [R1 V1].
    destruct (rounds_to_of_Z 100 ltac:(split; reflexivity)) as [R100 V100].
    assert (Hnn : (0 < IZR (Z.of_nat (S n)))%R) by (apply IZR_lt; lia).
    assert (Hnn' : (0 < IZR (Z.of_nat (S (S n))))%R) by (apply IZR_lt; lia).
    assert (Hfrac : (IZR (Z.of_nat p) / IZR (Z.of_nat (S n))
                     <= IZR (Z.of_nat (S p)) / IZR (Z.of_nat (S (S n))))%R).
    { rewrite !Nat2Z.inj_succ, !succ_IZR in *.
      assert (IZR (Z.of_nat p) <= IZR (Z.of_nat n) + 1)%R
        by (rewrite <- succ_IZR; apply IZR_le; lia).
      assert (0 <= IZR (Z.of_nat p))%R by (apply IZR_le; lia).
      apply Rmult_le_reg_r with ((IZR (Z.of_nat n) + 1) * (IZR (Z.of_nat n) + 1 + 1))%R;
        [ nra | ].
      field_simplify; [ nra | lra | lra ]. }
    assert (Hone : (IZR (Z.of_nat (S p)) / IZR (Z.of_nat (S (S n))) <= 1)%R).
    { apply Rmult_le_reg_r with (IZR (Z.of_nat (S (S n)))); [ exact Hnn' | ].
      unfold Rdiv. rewrite Rmult_assoc, Rinv_l by lra.
      rewrite Rmult_1_r, Rmult_1_l. apply IZR_le. lia. }
    pose proof (rounds_to_mono _ _ _ _ Ra Ra' Hfrac) as Haa.
    pose proof (rounds_to_mono _ _ _ _ Ra' R1 Hone) as Ha1. rewrite V1 in Ha1.
    pose proof (good_bounds a (proj1 Ra)) as Ha0.
    pose proof (times100_rounds a (proj1 Ra) ltac:(lra)) as Rb.
    pose proof (times100_rounds a' (proj1 Ra') Ha1) as Rb'.
    pose proof (rounds_to_mono _ _ _ _ Rb Rb' ltac:(lra)) as Hbb.
    pose proof (rounds_to_mono _ _ _ _ Rb' R100 ltac:(lra)) as Hb100.
    rewrite V100 in Hb100.
    apply round1_mono; [ apply Rb | apply Rb' | exact Hbb | lra ].
Qed.

Lemma passRate_counts (rows : list AgentScores) :
  exists stats,
    fetchDashboardStats (fetched rows) = Return stats /\
    passRate stats
    = passRate_of (List.length (filter passes (filter has_score rows)))
                  (List.length (filter has_score rows)).
Proof. eexists. split; reflexivity. Qed.

Lemma ge_8_truthy x : ge x (of_Z 8) = true -> truthy x = true.
Proof. destruct x; try reflexivity; discriminate. Qed.

Lemma filter_length_le {A : Type} (f : A -> bool) (l : list A) :
  (List.length (filter f l) <= List.length l)%nat.
Proof.
  induction l as [ | a l IH ]; simpl; [ lia | ].
  destruct (f a); simpl; lia.
Qed.

(** C7. Adding one record whose score is at least 8.0 to a collection of
    agent records (anywhere in it, the other records unchanged; an array
    holds fewer than 2^32 elements) never decreases the [passRate] that
    [fetchDashboardStats] computes. *)
Theorem passRate_monotone (before after : list AgentScores) (a : AgentScores) (x : number) :
  last_test_score a = num x -> ge x (of_Z 8) = true ->
  Z.of_nat (List.length (before ++ a :: after)) < 2 ^ 32 ->
  exists stats stats',
    fetchDashboardStats (fetched (before ++ after)) = Return stats /\
    fetchDashboardStats (fetched (before ++ a :: after)) = Return stats' /\
    le (passRate stats) (passRate stats') = true.
Proof.
  intros Ha Hx Hlen.
  destruct (passRate_counts (before ++ after)) as (stats & Hs & Hp).
  destruct (passRate_counts (before ++ a :: after)) as (stats' & Hs' & Hp').
  exists stats, stats'. split; [ exact Hs | ]. split; [ exact Hs' | ].
  rewrite Hp, Hp'.
  assert (Hv : has_score a = true) by (unfold has_score; rewrite Ha; reflexivity).
  assert (Hpass : passes a = true).
  { unfold passes. rewrite Ha. cbn [or_num].
    rewrite (ge_8_truthy x Hx). exact Hx. }
  assert (E1 : filter has_score (before ++ a :: after)
               = filter has_score before ++ a :: filter has_score after).
  { rewrite filter_app. cbn [filter]. rewrite Hv. reflexivity. }
  assert (E2 : filter passes (filter has_score (before ++ a :: after))
               = filter passes (filter has_score before)
                 ++ a :: filter passes (filter has_score after)).
  { rewrite E1, filter_app. cbn [filter]. rewrite Hpass. reflexivity. }
  rewrite E2, E1. rewrite !filter_app, !length_app. cbn [List.length].
  rewrite !Nat.add_succ_r.
  apply passRate_of_mono.
  - pose proof (filter_length_le passes (filter has_score before)).
    pose proof (filter_length_le passes (filter has_score after)). lia.
  - rewrite length_app in Hlen. cbn [List.length] in Hlen.
    pose proof (filter_length_le has_score before).
    pose proof (filter_length_le has_score after).
    assert (2 ^ 32 < 2 ^ 53) by reflexivity. lia.
Qed.

Lemma passRate_monotone_witness :
  exists stats stats',
    fetchDashboardStats
      (fetched [ {| last_test_score := num (Number_ "9.0"); total_testes_executados := null |};
                 {| last_test_score := num (Number_ "7.5"); total_testes_executados := null |};
                 {| last_test_score := null; total_testes_executados := null |} ])
    = Return stats /\
    fetchDashboardStats
      (fetched [ {| last_test_score := num (Number_ "9.0"); total_testes_executados := null |};
                 {| last_test_score := num (Number_ "8.0"); total_testes_executados := null |};
                 {| last_test_score := num (Number_ "7.5"); total_testes_executados := null |};
                 {| last_test_score := null; total_testes_executados := null |} ])
    = Return stats' /\
    le (passRate stats) (passRate stats') = true.
Proof.
  apply (passRate_monotone
           [ {| last_test_score := num (Number_ "9.0"); total_testes_executados := null |} ]
           [ {| last_test_score := num (Number_ "7.5"); total_testes_executados := null |};
             {| last_test_score := null; total_testes_executados := null |} ]
           {| last_test_score := num (Number_ "8.0"); total_testes_executados := null |}
           (Number_ "8.0")).
  - reflexivity.
  - reflexivity.
  - reflexivity.
Defined.

(* ===================================================================== *)
(** ** The record mapper *)
(* ===================================================================== *)

(** C9. [mapAgentToLegacyFormat] copies identity, name, version and status;
    [lastEvaluation] is [last_test_at] when a (non-empty) timestamp is
    present and [created_at] when it is null; [score] is [last_test_score]
    when it is a Number and 0 when it is absent.  A row with [last_test_at]
    null and [created_at = "2024-01-01"] maps to that date. *)
Theorem mapAgentToLegacyFormat_spec (agent : Agent.AgentPerformanceSummary) :
  let legacy := mapAgentToLegacyFormat agent in
  Legacy.id legacy = Agent.agent_version_id agent /\
  Legacy.name legacy = Agent.agent_name agent /\
  Legacy.version legacy = Agent.version agent /\
  Legacy.status legacy = Agent.status agent /\
  (forall ts, Agent.last_test_at agent = Some ts -> ts <> EmptyString ->
              Legacy.lastEvaluation legacy = ts) /\
  (Agent.last_test_at agent = None ->
   Legacy.lastEvaluation legacy = Agent.created_at agent) /\
  (Agent.last_test_at agent = None -> Agent.created_at agent = "2024-01-01"%string ->
   Legacy.lastEvaluation legacy = "2024-01-01"%string) /\
  (forall x, Agent.last_test_score agent = num x -> is_nan x = false ->
             strict_eq (Legacy.score legacy) x = true) /\
  (forall x, Agent.last_test_score agent = num x -> truthy x = true ->
             Legacy.score legacy = x) /\
  (Agent.last_test_score agent = null \/ Agent.last_test_score agent = undefined ->
   Legacy.score legacy = zero).
Proof.
  cbn zeta. unfold mapAgentToLegacyFormat. cbn.
  repeat split.
  - intros ts -> Hts. destruct ts; [ congruence | reflexivity ].
  - intros ->. reflexivity.
  - intros -> ->. reflexivity.
  - intros x -> Hx. cbn. destruct (truthy x) eqn:Ht.
    + unfold strict_eq, SFeqb. rewrite SFcompare_refl by exact Hx. reflexivity.
    + destruct x; try discriminate; reflexivity.
  - intros x -> Hx. cbn. rewrite Hx. reflexivity.
  - intros [-> | ->]; reflexivity.
Qed.

Lemma mapAgentToLegacyFormat_spec_witness :
  Legacy.lastEvaluation (mapAgentToLegacyFormat (sample_agent None null))
  = "2024-01-01"%string /\
  Legacy.score (mapAgentToLegacyFormat (sample_agent None null)) = zero /\
  Legacy.lastEvaluation
    (mapAgentToLegacyFormat (sample_agent (Some "2024-03-05T10:00:00+00:00"%string)
                                          (num (Number_ "8.5"))))
  = "2024-03-05T10:00:00+00:00"%string /\
  Legacy.score
    (mapAgentToLegacyFormat (sample_agent (Some "2024-03-05T10:00:00+00:00"%string)
                                          (num (Number_ "8.5"))))
  = Number_ "8.5".
Proof.
  pose proof (mapAgentToLegacyFormat_spec (sample_agent None null)) as H1.
  pose proof (mapAgentToLegacyFormat_spec
                (sample_agent (Some "2024-03-05T10:00:00+00:00"%string)
                              (num (Number_ "8.5")))) as H2.
  cbn zeta in H1, H2.
  destruct H1 as (_ & _ & _ & _ & _ & _ & H1d & _ & _ & H1s).
  destruct H2 as (_ & _ & _ & _ & H2d & _ & _ & _ & H2s & _).
  split; [ apply H1d; reflexivity | ].
  split; [ apply H1s; left; reflexivity | ].
  split; [ apply (H2d _ eq_refl); discriminate | ].
  apply (H2s _ eq_refl). reflexivity.
Defined.

(* ===================================================================== *)
(** ** The status classifier *)
(* ===================================================================== *)

Import TestsPage.

(** C5. On the score range [0, 10] the classifier partitions: a score is
    "passed" iff it is at least 8, "warning" iff it is at least 6 and below
    8, "failed" iff it is below 6; 8.0 is "passed" and 6.0 is "warning". *)
Theorem getTestStatus_partition (s : number) :
  ge s (of_Z 0) = true -> le s (of_Z 10) = true ->
  (getTestStatus s = passed <-> ge s (of_Z 8) = true) /\
  (getTestStatus s = warning <-> ge s (of_Z 6) = true /\ lt s (of_Z 8) = true) /\
  (getTestStatus s = failed <-> lt s (of_Z 6) = true) /\
  getTestStatus (Number_ "8.0") = passed /\
  getTestStatus (Number_ "6.0") = warning.
Proof.
  intros H0 _. apply ge_true_not_nan in H0.
  assert (H8 : ge s (of_Z 8) = false <-> lt s (of_Z 8) = true)
    by (apply ge_false_lt; [ exact H0 | reflexivity ]).
  assert (H6 : ge s (of_Z 6) = false <-> lt s (of_Z 6) = true)
    by (apply ge_false_lt; [ exact H0 | reflexivity ]).
  assert (H68 : lt s (of_Z 6) = true -> lt s (of_Z 8) = true)
    by (intros H; apply (lt_trans s (of_Z 6)); [ exact H | reflexivity ]).
  unfold getTestStatus.
  destruct (ge s (of_Z 8)) eqn:E8; destruct (ge s (of_Z 6)) eqn:E6;
    repeat split; intros; try discriminate; try reflexivity;
    try (destruct H8 as [H8a H8b]; destruct H6 as [H6a H6b]);
    repeat match goal with
           | H : _ /\ _ |- _ => destruct H
           end;
    try (specialize (H8a eq_refl)); try (specialize (H6a eq_refl));
    try (specialize (H8b ltac:(auto))); try (specialize (H6b ltac:(auto)));
    try congruence; auto.
Qed.

Lemma getTestStatus_partition_witness :
  getTestStatus (Number_ "7.999") = warning /\
  getTestStatus (Number_ "5.999") = failed.
Proof.
  pose proof (getTestStatus_partition (Number_ "7.999") eq_refl eq_refl)
    as (_ & Hw & _).
  pose proof (getTestStatus_partition (Number_ "5.999") eq_refl eq_refl)
    as (_ & _ & Hf & _).
  split; [ apply Hw | apply Hf ]; repeat split.
Defined.

(* ===================================================================== *)
(** ** Summary statistics of the test-history page *)
(* ===================================================================== *)

Lemma div_finite_not_nan x s m e :
  is_nan x = false -> is_nan (div x (S754_finite s m e)) = false.
Proof.
  unfold div. destruct x as [sx | sx | | sx mx ex]; intros H;
    try discriminate; try reflexivity.
  cbn [SFdiv].
  pose proof (SFdiv_core_binary_inbetween mx ex m e) as Hc.
  destruct (SFdiv_core_binary prec emax (Z.pos mx) ex (Z.pos m) e) as [[q eq] l].
  destruct Hc as (Hq & _). apply binary_round_aux_not_nan. exact Hq.
Qed.

Lemma Math_round_not_nan x : is_nan x = false -> is_nan (Math_round x) = false.
Proof.
  destruct x as [sx | sx | | sx mx ex]; intros H; try discriminate; try reflexivity.
  cbn [Math_round]. destruct (0 <=? ex); [ reflexivity | ].
  apply binary_normalize_not_nan.
Qed.

Lemma sum_durations_not_nan tests s :
  Forall (fun t => is_finite (test_duration_ms t) = true) tests ->
  is_nan s = false ->
  is_nan (fold_left (fun acc test => add acc (test_duration_ms test)) tests s) = false.
Proof.
  intros H. revert s. induction H as [ | t l Ht _ IH ]; intros s Hs; simpl.
  - exact Hs.
  - apply IH. apply add_not_nan; assumption.
Qed.

(** The text of [toFixed(1)] on a Number that rounding produced, below
    1000, starts with a digit. *)
Lemma toFixed1_digit b :
  good b -> (val b < 1000)%R ->
  exists d r, toFixed1 b = String (digit_char d) r.
Proof.
  intros Hb Hlt. rewrite (toFixed1_small b Hb Hlt).
  destruct (digits_fuel_head (N.to_nat (N.size (tenths_of b / 10)))
              (tenths_of b / 10)%N EmptyString) as (d & r & Hd).
  fold (digits (tenths_of b / 10)) in Hd. rewrite Hd. cbn [append]. eauto.
Qed.

(** C10. With no test record fetched, the pass-rate badge reads "0%" and
    [averageDuration] is 0: the guard [totalTests > 0] skips both
    divisions.  Neither value is ever NaN: whatever the records (fewer
    than 2^32, with finite durations), [averageDuration] is not NaN and
    the badge does not read "NaN%". *)
Theorem history_stats_defined (testResults : list LatestTestResult) :
  (testResults = [] ->
   totalTests testResults = O /\
   passRateBadge testResults = "0%"%string /\
   averageDuration testResults = zero) /\
  (Z.of_nat (List.length testResults) < 2 ^ 32 ->
   Forall (fun t => is_finite (test_duration_ms t) = true) testResults ->
   is_nan (averageDuration testResults) = false /\
   passRateBadge testResults <> "NaN%"%string).
Proof.
  split.
  - intros ->. repeat split.
  - intros Hlen Hfin.
    assert (H53 : 2 ^ 32 < 2 ^ 53) by reflexivity.
    unfold averageDuration, passRateBadge, totalTests.
    destruct testResults as [ | t0 l ] eqn:El; [ split; [ reflexivity | discriminate ] | ].
    rewrite <- El in *.
    assert (Hpos : (0 < List.length testResults)%nat) by (rewrite El; simpl; lia).
    replace (0 <? List.length testResults)%nat with true
      by (symmetry; apply Nat.ltb_lt; exact Hpos).
    destruct (of_Z_exact (Z.of_nat (List.length testResults)) ltac:(lia))
      as (_ & _ & mn & en & En & _).
    split.
    + apply Math_round_not_nan.
      destruct (of_Z_exact 1000 ltac:(split; reflexivity)) as (_ & _ & mk & ek & Ek & _).
      rewrite Ek. apply div_finite_not_nan.
      unfold of_nat. rewrite En. apply div_finite_not_nan.
      apply sum_durations_not_nan; [ exact Hfin | reflexivity ].
    + set (p := passedTests testResults).
      assert (Hp : (p <= List.length testResults)%nat)
        by (unfold p, passedTests; apply filter_length_le).
      pose proof (quotient_rounds (Z.of_nat p) (Z.of_nat (List.length testResults))
                    ltac:(lia) ltac:(lia)) as Rq.
      destruct (rounds_to_of_Z 1 ltac:(split; reflexivity)) as [R1 V1].
      destruct (rounds_to_of_Z 100 ltac:(split; reflexivity)) as [R100 V100].
      assert (Hn : (0 < IZR (Z.of_nat (List.length testResults)))%R)
        by (apply IZR_lt; lia).
      assert (Hone : (IZR (Z.of_nat p) / IZR (Z.of_nat (List.length testResults)) <= 1)%R).
      { apply Rmult_le_reg_r with (IZR (Z.of_nat (List.length testResults)));
          [ exact Hn | ].
        unfold Rdiv. rewrite Rmult_assoc, Rinv_l by lra.
        rewrite Rmult_1_r, Rmult_1_l. apply IZR_le. lia. }
      pose proof (rounds_to_mono _ _ _ _ Rq R1 Hone) as Hq1. rewrite V1 in Hq1.
      pose proof (times100_rounds _ (proj1 Rq) Hq1) as Rb.
      pose proof (rounds_to_mono _ _ _ _ Rb R100 ltac:(lra)) as Hb. rewrite V100 in Hb.
      destruct (toFixed1_digit _ (proj1 Rb) ltac:(lra)) as (d & r & Hd).
      fold (of_nat p) in Hd. fold (of_nat (List.length testResults)) in Hd.
      rewrite Hd. cbn [append].
      pose proof (digit_char_cases d) as Hc. cbn [In] in Hc.
      repeat (destruct Hc as [<- | Hc]; [ discriminate | ]). destruct Hc.
Qed.

Lemma history_stats_defined_witness :
  passRateBadge [] = "0%"%string /\
  averageDuration [] = zero /\
  (let tests :=
     [ {| test_result_id := "r1"; agent_version_id := "a1"; agent_name := "Sales Bot";
          version := "1.0"; overall_score := Number_ "8.0";
          test_duration_ms := Number_ "1500"; tested_at := 1704625200000 |};
       {| test_result_id := "r2"; agent_version_id := "a2"; agent_name := "Support";
          version := "2.1"; overall_score := Number_ "7.5";
          test_duration_ms := Number_ "2500"; tested_at := 1704670200000 |} ] in
   is_nan (averageDuration tests) = false /\
   passRateBadge tests <> "NaN%"%string).
Proof.
  split; [ apply (history_stats_defined []); reflexivity | ].
  split; [ apply (history_stats_defined []); reflexivity | ].
  cbn zeta. apply history_stats_defined.
  - reflexivity.
  - repeat constructor.
Defined.

(* ===================================================================== *)
(** ** The tests-run counter *)
(* ===================================================================== *)












(* ===================================================================== *)
(** ** Filtering and sorting the test history *)
(* ===================================================================== *)

Section FilterFacts.
Context {A : Type}.

Lemma filter_filter_andb (f g : A -> bool) (l : list A) :
  filter f (filter g l) = filter (fun x => g x && f x) l.
Proof.
  induction l as [ | x l IH ]; simpl; [ reflexivity | ].
  destruct (g x); simpl; [ destruct (f x) | ]; rewrite IH; reflexivity.
Qed.

Lemma filter_all (f : A -> bool) (l : list A) :
  (forall x, f x = true) -> filter f l = l.
Proof.
  intros H. induction l as [ | x l IH ]; simpl; [ reflexivity | ].
  rewrite H, IH. reflexivity.
Qed.
End FilterFacts.

Section SortFacts.
Context {A : Type} (cmp : A -> A -> Z).

Hypothesis cmp_total : forall x y, 0 < cmp x y -> cmp y x <= 0.

Lemma insert_perm x l : Permutation (insert cmp x l) (x :: l).
Proof.
  induction l as [ | y l IH ]; simpl; [ reflexivity | ].
  destruct (cmp x y <=? 0); [ reflexivity | ].
  rewrite IH. apply perm_swap.
Qed.

Lemma sort_perm l : Permutation (sort cmp l) l.
Proof.
  induction l as [ | x l IH ]; simpl; [ reflexivity | ].
  rewrite insert_perm. apply perm_skip. exact IH.
Qed.

Lemma insert_sorted x l :
  Sorted (before cmp) l -> Sorted (before cmp) (insert cmp x l).
Proof.
  induction 1 as [ | y l Hs IH Hhd ]; simpl.
  - repeat constructor.
  - destruct (Z.leb_spec (cmp x y) 0) as [Hle | Hgt].
    + constructor; [ constructor; assumption | constructor; exact Hle ].
    + constructor; [ exact IH | ].
      destruct l as [ | z l ]; simpl.
      * constructor. apply cmp_total. exact Hgt.
      * destruct (cmp x z <=? 0); constructor.
        -- apply cmp_total. exact Hgt.
        -- inversion Hhd; assumption.
Qed.

Lemma sort_sorted l : Sorted (before cmp) (sort cmp l).
Proof.
  induction l as [ | x l IH ]; simpl; [ constructor | ].
  apply insert_sorted. exact IH.
Qed.
End SortFacts.

Lemma sort_byTestedAtDesc_sorted l :
  StronglySorted not_older (sort byTestedAtDesc l).
Proof.
  apply Sorted_StronglySorted.
  - intros a b c. unfold not_older. lia.
  - assert (H : Sorted (before byTestedAtDesc) (sort byTestedAtDesc l)).
    { apply sort_sorted. unfold byTestedAtDesc. intros; lia. }
    revert H. generalize (sort byTestedAtDesc l). intros l'.
    induction 1 as [ | y l0 Hs IH Hhd ]; constructor; [ exact IH | ].
    destruct Hhd as [ | z l0 Hz ]; constructor.
    unfold before, byTestedAtDesc in Hz. unfold not_older. lia.
Qed.

Lemma includes_empty s : includes s EmptyString = true.
Proof. destruct s; reflexivity. Qed.

(** C8. The three criteria commute: filtering by them one after the other,
    in any of the six orders, then sorting, is what the page computes.  The
    result holds exactly the records that satisfy the three criteria, most
    recent first; the empty query, "all" status and "all" scores exclude
    nothing. *)
Theorem filteredTests_spec
    (testResults : list LatestTestResult) (searchQuery : string)
    (statusFilter : StatusFilter) (scoreFilter : ScoreFilter) :
  let bySearch := filter (matchesSearch searchQuery) in
  let byStatus := filter (matchesStatus statusFilter) in
  let byScore := filter (matchesScore scoreFilter) in
  let page := filteredTests testResults searchQuery statusFilter scoreFilter in
  (sort byTestedAtDesc (byScore (byStatus (bySearch testResults))) = page /\
   sort byTestedAtDesc (byStatus (byScore (bySearch testResults))) = page /\
   sort byTestedAtDesc (byScore (bySearch (byStatus testResults))) = page /\
   sort byTestedAtDesc (bySearch (byScore (byStatus testResults))) = page /\
   sort byTestedAtDesc (byStatus (bySearch (byScore testResults))) = page /\
   sort byTestedAtDesc (bySearch (byStatus (byScore testResults))) = page) /\
  (forall test,
      In test page <->
      In test testResults /\
      matchesSearch searchQuery test = true /\
      matchesStatus statusFilter test = true /\
      matchesScore scoreFilter test = true) /\
  Permutation page
    (filter (fun test => matchesSearch searchQuery test &&
                         matchesStatus statusFilter test &&
                         matchesScore scoreFilter test) testResults) /\
  StronglySorted not_older page /\
  (forall test, matchesSearch EmptyString test = true) /\
  (forall test, matchesStatus status_all test = true) /\
  (forall test, matchesScore score_all test = true) /\
  Permutation (filteredTests testResults EmptyString status_all score_all) testResults.
Proof.
  cbn zeta. unfold filteredTests.
  split; [ | split; [ | split; [ | split; [ | split; [ | split; [ | split ] ] ] ] ] ].
  - repeat split; f_equal; rewrite !filter_filter_andb; apply filter_ext;
      intros t; destruct (matchesSearch searchQuery t),
                         (matchesStatus statusFilter t),
                         (matchesScore scoreFilter t); reflexivity.
  - intros t. split.
    + intros H. apply (Permutation_in _ (sort_perm byTestedAtDesc _)) in H.
      apply filter_In in H. rewrite !andb_true_iff in H. tauto.
    + intros H. apply (Permutation_in _ (Permutation_sym (sort_perm byTestedAtDesc _))).
      apply filter_In. rewrite !andb_true_iff. tauto.
  - apply sort_perm.
  - apply sort_byTestedAtDesc_sorted.
  - intros t. unfold matchesSearch. apply includes_empty.
  - reflexivity.
  - reflexivity.
  - rewrite sort_perm. rewrite filter_all; [ reflexivity | ].
    intros t. unfold matchesSearch. cbn. rewrite includes_empty. reflexivity.
Qed.

(* ===================================================================== *)
(** ** Weekly buckets of the score trend *)
(* ===================================================================== *)

Section MapFacts.
Context {V : Type}.

Lemma has_tabulate (f : string -> V) ks k :
  Map.has k (tabulate f ks) = existsb (fun k' => String.eqb k' k) ks.
Proof.
  induction ks as [ | k' ks IH ]; simpl; [ reflexivity | ].
  rewrite IH. reflexivity.
Qed.

Lemma get_tabulate (f : string -> V) ks k :
  existsb (fun k' => String.eqb k' k) ks = true ->
  Map.get k (tabulate f ks) = Some (f k).
Proof.
  induction ks as [ | k' ks IH ]; simpl; [ discriminate | ].
  destruct (String.eqb_spec k' k) as [-> | Hne]; simpl; auto.
Qed.

Lemma set_tabulate_new (f : string -> V) ks k v :
  existsb (fun k' => String.eqb k' k) ks = false ->
  Map.set k v (tabulate f ks) = tabulate f ks ++ [(k, v)].
Proof.
  induction ks as [ | k' ks IH ]; simpl; [ reflexivity | ].
  destruct (String.eqb k' k); simpl; [ discriminate | ].
  intros H. rewrite (IH H). reflexivity.
Qed.

Lemma set_tabulate_old (f : string -> V) ks k v :
  NoDup ks -> In k ks ->
  Map.set k v (tabulate f ks)
  = tabulate (fun k' => if String.eqb k' k then v else f k') ks.
Proof.
  induction 1 as [ | k' ks Hnin Hnd IH ]; simpl; [ intros [] | ].
  intros Hin. destruct (String.eqb_spec k' k) as [-> | Hne].
  - f_equal. apply map_ext_in. intros k' Hk'.
    destruct (String.eqb_spec k' k) as [-> | _]; [ contradiction | reflexivity ].
  - f_equal. apply IH. destruct Hin; [ contradiction | assumption ].
Qed.
End MapFacts.

Lemma existsb_eqb_In (k : string) (ks : list string) :
  existsb (fun k' => String.eqb k' k) ks = true <-> In k ks.
Proof.
  rewrite existsb_exists. split.
  - intros (k' & Hin & He). apply String.eqb_eq in He. subst. exact Hin.
  - intros H. exists k. split; [ exact H | apply String.eqb_refl ].
Qed.

Lemma first_seen_snoc ks k :
  first_seen (ks ++ [k])
  = if existsb (fun k' => String.eqb k' k) (first_seen ks)
    then first_seen ks else first_seen ks ++ [k].
Proof. unfold first_seen. rewrite fold_left_app. reflexivity. Qed.

Lemma first_seen_spec ks :
  NoDup (first_seen ks) /\ (forall k, In k (first_seen ks) <-> In k ks).
Proof.
  induction ks as [ | k ks [IHn IHi] ] using rev_ind.
  - split; [ constructor | intros; reflexivity ].
  - rewrite first_seen_snoc.
    destruct (existsb _ (first_seen ks)) eqn:E.
    + apply existsb_eqb_In in E. split; [ exact IHn | ].
      intros k'. rewrite in_app_iff, <- IHi. simpl.
      split; [ tauto | intros [H | [<- | []]]; assumption ].
    + assert (Hk : ~ In k (first_seen ks)).
      { intros H. apply existsb_eqb_In in H. congruence. }
      split.
      * apply NoDup_app; [ exact IHn | repeat constructor; intros [] | ].
        intros x Hx [<- | []]. contradiction.
      * intros k'. rewrite !in_app_iff, IHi. tauto.
Qed.

Section Buckets.
Variable tza : Z.

Local Opaque weekKey.

Lemma bucket_scores_snoc rows r k :
  bucket_scores tza (rows ++ [r]) k
  = if String.eqb (weekKey tza r) k
    then bucket_scores tza rows k ++ [SupabaseData.overall_score r]
    else bucket_scores tza rows k.
Proof.
  unfold bucket_scores, members. rewrite filter_app, map_app. simpl.
  destruct (String.eqb (weekKey tza r) k); simpl;
    [ reflexivity | apply app_nil_r ].
Qed.

Lemma members_nil_iff rows k :
  members tza k rows = [] <-> ~ In k (map (weekKey tza) rows).
Proof.
  unfold members. induction rows as [ | r rows IH ]; simpl.
  - tauto.
  - destruct (String.eqb_spec (weekKey tza r) k) as [-> | Hne].
    + split; [ discriminate | intros H; exfalso; apply H; auto ].
    + rewrite IH. tauto.
Qed.

(** The Map built by the [forEach]: one entry per distinct key, in order
    of first appearance, holding the scores of the key's records. *)
Lemma groupByWeek_tabulate rows :
  groupByWeek tza rows
  = tabulate (bucket_scores tza rows) (first_seen (map (weekKey tza) rows)).
Proof.
  unfold groupByWeek.
  induction rows as [ | r rows IH ] using rev_ind; [ reflexivity | ].
  rewrite fold_left_app. cbn [fold_left]. rewrite IH. clear IH.
  rewrite map_app. cbn [map]. rewrite first_seen_snoc.
  set (ks := first_seen (map (weekKey tza) rows)).
  destruct (first_seen_spec (map (weekKey tza) rows)) as [Hnd Hin].
  fold ks in Hnd, Hin.
  unfold addTest. rewrite has_tabulate.
  destruct (existsb (fun k' => String.eqb k' (weekKey tza r)) ks) eqn:E; cbn [negb].
  - rewrite (get_tabulate _ _ _ E).
    rewrite set_tabulate_old by (auto; apply existsb_eqb_In; exact E).
    apply map_ext. intros k. rewrite bucket_scores_snoc.
    rewrite (String.eqb_sym k).
    destruct (String.eqb_spec (weekKey tza r) k) as [<- | _]; reflexivity.
  - rewrite (set_tabulate_new _ _ _ _ E).
    assert (Hk : ~ In (weekKey tza r) ks).
    { intros H. apply existsb_eqb_In in H. congruence. }
    assert (Hget : Map.get (weekKey tza r)
                     (tabulate (bucket_scores tza rows) ks ++ [(weekKey tza r, [])])
                   = Some []).
    { clear - Hk. induction ks as [ | k ks IHk ]; simpl.
      - rewrite String.eqb_refl. reflexivity.
      - destruct (String.eqb_spec k (weekKey tza r)) as [-> | _].
        + exfalso. apply Hk. left. reflexivity.
        + apply IHk. intros H. apply Hk. right. exact H. }
    rewrite Hget.
    assert (Hset : forall v,
               Map.set (weekKey tza r) v
                 (tabulate (bucket_scores tza rows) ks ++ [(weekKey tza r, [])])
               = tabulate (bucket_scores tza rows) ks ++ [(weekKey tza r, v)]).
    { clear - Hk. intros v. induction ks as [ | k ks IHk ]; simpl.
      - rewrite String.eqb_refl. reflexivity.
      - destruct (String.eqb_spec k (weekKey tza r)) as [-> | _].
        + exfalso. apply Hk. left. reflexivity.
        + f_equal. apply IHk. intros H. apply Hk. right. exact H. }
    rewrite Hset. unfold tabulate. rewrite map_app. cbn [map].
    f_equal.
    + apply map_ext_in. intros k Hkin. rewrite bucket_scores_snoc.
      destruct (String.eqb_spec (weekKey tza r) k) as [<- | _];
        [ contradiction | reflexivity ].
    + rewrite bucket_scores_snoc, String.eqb_refl.
      assert (Hnil : members tza (weekKey tza r) rows = []).
      { apply members_nil_iff. rewrite <- Hin. exact Hk. }
      unfold bucket_scores at 1. rewrite Hnil. reflexivity.
Qed.


Lemma length_slice_last5 {A : Type} (l : list A) :
  (List.length (slice_last5 l) <= 5)%nat.
Proof. unfold slice_last5. rewrite length_skipn. lia. Qed.

End Buckets.

Section WeekStart.

(** Moving the day of the month back by [k] moves the time value back by
    [k] days, whatever the (fixed) offset of the local time zone. *)
Lemma setDate_back tza t k :
  Date.setDate tza t (Date.getDate tza t - k) = t - k * Date.msPerDay.
Proof.
  unfold Date.setDate, Date.getDate, Date.UTC, Date.MakeDate, Date.MakeDay,
    Date.DateFromTime, Date.TimeWithinDay, Date.LocalTime, Date.Day.
  set (lt := t + tza).
  set (f := Date.FirstOfMonth _ _).
  pose proof (Z.div_mod lt Date.msPerDay ltac:(discriminate)) as H.
  lia.
Qed.

Lemma isoDate_isoDay t : Date.isoDate t = isoDay (Date.Day t).
Proof.
  unfold isoDay, Date.isoDate, Date.YearFromTime, Date.MonthFromTime,
    Date.DateFromTime, Date.YearFromTime, Date.MonthFromTime.
  assert (H : Date.Day (Date.Day t * Date.msPerDay) = Date.Day t)
    by (unfold Date.Day at 1; apply Z.div_mul; discriminate).
  rewrite !H. reflexivity.
Qed.

Lemma weekStartDay_mono d d' : d <= d' -> weekStartDay d <= weekStartDay d'.
Proof.
  unfold weekStartDay. intros H.
  pose proof (Z.div_mod (d + 4) 7 ltac:(discriminate)).
  pose proof (Z.div_mod (d' + 4) 7 ltac:(discriminate)).
  pose proof (Z.div_le_mono (d + 4) (d' + 4) 7 ltac:(lia) ltac:(lia)).
  lia.
Qed.

Lemma Day_mono t t' : t <= t' -> Date.Day t <= Date.Day t'.
Proof. intros H. apply Z.div_le_mono; [ reflexivity | exact H ]. Qed.

(** The week key in general, and when the runtime's zone is UTC. *)
Lemma weekKey_eq tza r :
  weekKey tza r
  = isoDay (Date.Day (SupabaseData.tested_at r
                      - Date.getDay tza (SupabaseData.tested_at r) * Date.msPerDay)).
Proof.
  unfold weekKey. rewrite setDate_back. apply isoDate_isoDay.
Qed.

Lemma weekKey_utc r :
  weekKey 0 r = isoDay (weekStartDay (Date.Day (SupabaseData.tested_at r))).
Proof.
  rewrite weekKey_eq. f_equal.
  unfold Date.getDay, Date.LocalTime, Date.WeekDay, weekStartDay.
  rewrite Z.add_0_r. unfold Date.Day.
  replace (SupabaseData.tested_at r
           - (SupabaseData.tested_at r / Date.msPerDay + 4) mod 7 * Date.msPerDay)
    with (SupabaseData.tested_at r
          + (- ((SupabaseData.tested_at r / Date.msPerDay + 4) mod 7)) * Date.msPerDay)
    by lia.
  rewrite Z.div_add by discriminate. lia.
Qed.

End WeekStart.


(* ===================================================================== *)
(** ** Order of the emitted buckets *)
(* ===================================================================== *)


Section SortedFacts.
Context {A : Type} (R : A -> A -> Prop).

Lemma StronglySorted_snoc_inv l x :
  StronglySorted R (l ++ [x]) -> StronglySorted R l /\ Forall (fun y => R y x) l.
Proof.
  induction l as [ | a l IH ]; simpl; intros H.
  - split; constructor.
  - inversion H as [ | ? ? Hs Hf ]; subst.
    destruct (IH Hs) as [IH1 IH2].
    apply Forall_app in Hf. destruct Hf as [Hf1 Hf2].
    split; constructor; auto.
    inversion Hf2; assumption.
Qed.

Lemma StronglySorted_snoc l x :
  StronglySorted R l -> Forall (fun y => R y x) l -> StronglySorted R (l ++ [x]).
Proof.
  induction 1 as [ | a l Hs IH Hf ]; simpl; intros Hx.
  - repeat constructor.
  - inversion Hx; subst. constructor; [ apply IH; assumption | ].
    apply Forall_app. split; [ exact Hf | repeat constructor; assumption ].
Qed.

Lemma StronglySorted_skipn n l :
  StronglySorted R l -> StronglySorted R (skipn n l).
Proof.
  revert l. induction n as [ | n IH ]; intros l H; simpl; [ exact H | ].
  destruct l as [ | a l ]; [ constructor | ].
  apply IH. inversion H; assumption.
Qed.
End SortedFacts.

(** Keys that are the images of non-decreasing days: the distinct keys, in
    order of first appearance, are the images of strictly increasing days. *)
Lemma first_seen_increasing (g : Z -> string) (ds : list Z) :
  StronglySorted Z.le ds ->
  exists ds',
    first_seen (map g ds) = map g ds' /\
    StronglySorted Z.lt ds' /\
    incl ds' ds.
Proof.
  induction ds as [ | d ds IH ] using rev_ind; intros Hs.
  - exists []. repeat split; [ constructor | apply incl_refl ].
  - apply StronglySorted_snoc_inv in Hs. destruct Hs as [Hs Hle].
    destruct (IH Hs) as (ds' & He & Hlt & Hincl).
    rewrite map_app. cbn [map]. rewrite first_seen_snoc, He.
    destruct (existsb (fun k' => String.eqb k' (g d)) (map g ds')) eqn:E.
    + exists ds'. repeat split; auto.
      intros x Hx. apply in_or_app. left. apply Hincl. exact Hx.
    + exists (ds' ++ [d]). rewrite map_app. repeat split.
      * apply StronglySorted_snoc; [ exact Hlt | ].
        apply Forall_forall. intros y Hy.
        assert (Hyd : y <= d)
          by (apply (proj1 (Forall_forall _ _) Hle); apply Hincl; exact Hy).
        assert (Hne : y <> d).
        { intros ->. assert (Hin : In (g d) (map g ds')) by (apply in_map; exact Hy).
          apply existsb_eqb_In in Hin. congruence. }
        lia.
      * intros x Hx. apply in_app_or in Hx. apply in_or_app.
        destruct Hx as [Hx | Hx]; [ left; apply Hincl; exact Hx | right; exact Hx ].
Qed.

Lemma weekStartDays_sorted rows :
  ascending rows ->
  StronglySorted Z.le
    (map (fun r => weekStartDay (Date.Day (SupabaseData.tested_at r))) rows).
Proof.
  induction 1 as [ | a l Hs IH Hf ]; simpl; constructor; [ exact IH | ].
  apply Forall_map. eapply Forall_impl; [ | exact Hf ].
  intros b Hb. cbn beta in Hb. apply weekStartDay_mono, Day_mono. exact Hb.
Qed.

(** What the bucketer guarantees in every time zone: at most five points,
    the last five buckets in order of first appearance. *)
Lemma fetchScoreHistory_last5 (tza : Z) (rows : list TestScore) :
  exists points,
    fetchScoreHistory tza (fetched rows) = Return points /\
    (List.length points <= 5)%nat /\
    map date points = slice_last5 (first_seen (map (weekKey tza) rows)).
Proof.
  unfold fetchScoreHistory, fetched. cbn [error data].
  eexists. split; [ reflexivity | ]. split; [ apply length_slice_last5 | ].
  unfold Map.entries. rewrite groupByWeek_tabulate.
  unfold slice_last5, tabulate. rewrite <- skipn_map, !map_map, !length_map.
  cbn [weekPoint date]. rewrite map_id. reflexivity.
Qed.

(** When the runtime's time zone is UTC and the records come in ascending
    order of [tested_at], the emitted dates are the ISO dates of strictly
    increasing days (each the start of the week of some record): the last
    five of all the weeks present. *)
Lemma fetchScoreHistory_utc_ascending (rows : list TestScore) :
  ascending rows ->
  exists points days alldays,
    fetchScoreHistory 0 (fetched rows) = Return points /\
    (List.length points <= 5)%nat /\
    map date points = map isoDay days /\
    StronglySorted Z.lt alldays /\
    days = slice_last5 alldays /\
    StronglySorted Z.lt days /\
    (forall d, In d alldays ->
               exists r, In r rows /\ weekStartDay (Date.Day (SupabaseData.tested_at r)) = d) /\
    (forall r, In r rows -> In (weekKey 0 r) (map isoDay alldays)).
Proof.
  intros Hasc.
  destruct (fetchScoreHistory_last5 0 rows) as (points & Hp & Hlen & Hdates).
  pose proof (weekStartDays_sorted rows Hasc) as Hs.
  destruct (first_seen_increasing isoDay _ Hs) as (alldays & He & Hlt & Hincl).
  rewrite map_map in He.
  assert (Hkeys : map (weekKey 0) rows
                  = map (fun r => isoDay (weekStartDay (Date.Day (SupabaseData.tested_at r)))) rows)
    by (apply map_ext; intros r; apply weekKey_utc).
  rewrite <- Hkeys in He.
  exists points, (slice_last5 alldays), alldays.
  split; [ exact Hp | ]. split; [ exact Hlen | ].
  split.
  { rewrite Hdates, He. unfold slice_last5. rewrite skipn_map, length_map. reflexivity. }
  split; [ exact Hlt | ]. split; [ reflexivity | ].
  split; [ apply StronglySorted_skipn; exact Hlt | ].
  split.
  - intros d Hd. apply Hincl in Hd. apply in_map_iff in Hd.
    destruct Hd as (r & Hr & Hin). eauto.
  - intros r Hin. rewrite <- He. apply (proj2 (first_seen_spec _)).
    apply in_map. exact Hin.
Qed.

Example fetchScoreHistory_utc_two_weeks :
  exists points,
    fetchScoreHistory 0
      (fetched [ {| SupabaseData.tested_at := 1704625200000;
                    SupabaseData.overall_score := Number_ "8" |};
                 {| SupabaseData.tested_at := 1704670200000;
                    SupabaseData.overall_score := Number_ "6" |};
                 {| SupabaseData.tested_at := 1705276800000;
                    SupabaseData.overall_score := Number_ "9.5" |} ])
    = Return points /\
    map date points = [ "2024-01-07"; "2024-01-14" ]%string.
Proof.
  eexists. split; reflexivity.
Qed.

(** C3 fails on the code when the runtime's zone is not UTC: the week start
    is computed in local time and its date is then read in UTC.  At UTC+1,
    two records of Sunday 2024-01-07 (11:00Z) and of the following local
    Monday (23:30Z), in ascending order, come out as two buckets with
    descending dates.  At UTC-3, a record of Monday 22:00 local time and
    one of Tuesday 10:00 come out as "2024-01-08" before "2024-01-07". *)
Theorem fetchScoreHistory_local_zone_not_ascending :
  let rows1 := [ {| SupabaseData.tested_at := 1704625200000;
                    SupabaseData.overall_score := Number_ "8" |};
                 {| SupabaseData.tested_at := 1704670200000;
                    SupabaseData.overall_score := Number_ "6" |} ] in
  let rows2 := [ {| SupabaseData.tested_at := 1704762000000;
                    SupabaseData.overall_score := Number_ "8" |};
                 {| SupabaseData.tested_at := 1704805200000;
                    SupabaseData.overall_score := Number_ "6" |} ] in
  ascending rows1 /\ ascending rows2 /\
  fetchScoreHistory 3600000 (fetched rows1)
  = Return [ {| date := "2024-01-07"; score := Number_ "8" |};
             {| date := "2024-01-06"; score := Number_ "6" |} ] /\
  fetchScoreHistory (-10800000) (fetched rows2)
  = Return [ {| date := "2024-01-08"; score := Number_ "8" |};
             {| date := "2024-01-07"; score := Number_ "6" |} ] /\
  fetchScoreHistory 0 (fetched rows1)
  = Return [ {| date := "2024-01-07"; score := Number_ "7" |} ].
Proof.
  cbn zeta. split; [ | split ].
  - repeat constructor. cbn. lia.
  - repeat constructor. cbn. lia.
  - repeat split; vm_compute; reflexivity.
Qed.
